(** * p4rt write path: serialized dispatcher and per-item error decoding

    A shallow embedding of [src/p4rt/write.go].  The first part embeds
    [parseP4RuntimeWriteError] as a function on lists; the second part
    embeds [Write], [SetWriteTraceChan], [ListenForWrites] and
    [processWriteResponse] as an executable interleaving semantics over
    Go channels, with the producers, the transport and the channel
    readers as the environment. *)

From Stdlib Require Import ZArith String.
From stdpp Require Import base option list sets strings.

Open Scope Z_scope.

(** ** Data model *)

(** [google.golang.org/grpc/codes]: the canonical codes the source names,
    and the one the scenario of the specification uses. *)
Module codes.
Definition OK : Z := 0.
Definition Unknown : Z := 2.
Definition Internal : Z := 13.
Definition Unavailable : Z := 14.
End codes.

(** [any.Any]: a type URL and a serialized payload. *)
Record Any := mkAny { TypeUrl : string; Value : list Z }.

(** [p4.Error] (message [Error] of p4runtime.proto).  [int32] fields are
    integers; the source only stores and compares them. *)
Record Error := mkError {
  CanonicalCode : Z;
  Message : string;
  Space : string;
  Code : Z;
  Details : option Any
}.

(** [spb.Status], the value of [status.Convert(err).Proto()]. *)
Record Status := mkStatus {
  GetCode : Z;
  GetMessage : string;
  GetDetails : list Any
}.

(** A non-nil Go [error] as [status.Convert] sees it: either it carries a
    gRPC status, or it is any other error, known by its text only. *)
Inductive error :=
| StatusError (s : Status)
| PlainError (msg : string).

(** [status.Convert]: the carried status, or [Unknown] with the text of
    the error and no details. *)
Definition Convert (err : error) : Status :=
  match err with
  | StatusError s => s
  | PlainError msg => mkStatus codes.Unknown msg []
  end.

(** A slot of a slice of [p4.Error] pointers: [None] is the nil pointer. *)
Abbreviation slot := (option Error) (only parsing).

(** ** parseP4RuntimeWriteError (write.go lines 75-112) *)

Section Parse.

(** [ptypes.UnmarshalAny(any, &p4Err)]: the decoded message, or the
    text of the error it returns. *)
Variable UnmarshalAny : Any -> Error + string.

(** Lines 84-94, the body of the loop for one detail record. *)
Definition decodeDetail (d : Any) : Error :=
  match UnmarshalAny d with
  | inl p4Err => p4Err
  | inr unmarshallErr =>
      mkError codes.Internal unmarshallErr "p4rt-go" 0 None
  end.

(** [errors[i] = p]: Go panics on an index out of range. *)
Definition store (i : nat) (p : slot) (errors : list slot) : option (list slot) :=
  if decide (i < length errors)%nat then Some (<[i := p]> errors) else None.

(** Lines 83-95: [for i := range grpcError.Details], from index [i]. *)
Fixpoint decodeDetails (i : nat) (details : list Any) (errors : list slot)
  : option (list slot) :=
  match details with
  | [] => Some errors
  | d :: rest =>
      match store i (Some (decodeDetail d)) errors with
      | Some errors' => decodeDetails (S i) rest errors'
      | None => None
      end
  end.

(** Lines 108-110: [for i := range errors { errors[i] = p4Error }]. *)
Fixpoint fillFrom (i : nat) (n : nat) (p : slot) (errors : list slot)
  : option (list slot) :=
  match n with
  | O => Some errors
  | S n' =>
      match store i p errors with
      | Some errors' => fillFrom (S i) n' p errors'
      | None => None
      end
  end.

(** [make] of the slice of [batchSize] nil pointers: panics on a
    negative length.  The allocation limit of the Go runtime, which
    makes [make] panic on a huge length as well, is not modelled. *)
Definition makeErrors (batchSize : Z) : option (list slot) :=
  if decide (batchSize < 0) then None
  else Some (replicate (Z.to_nat batchSize) None).

(** The function itself; [err = None] is the nil error, the result
    [None] is a run-time panic. *)
Definition parseP4RuntimeWriteError (err : option error) (batchSize : Z)
  : option (list slot) :=
  match makeErrors batchSize with
  | None => None
  | Some errors =>
      let code := 0 in
      let message := ""%string in
      let fallback code message :=
        let p4Error := mkError code message "" 0 None in
        fillFrom 0 (length errors) (Some p4Error) errors in
      match err with
      | Some e =>
          let grpcError := Convert e in
          if bool_decide (GetCode grpcError = codes.Unknown)
             && bool_decide (batchSize > 0)
             && bool_decide (Z.of_nat (length (GetDetails grpcError)) = batchSize)
          then decodeDetails 0 (GetDetails grpcError) errors
          else
            let message := GetMessage grpcError in
            fallback code message
      | None =>
          let code := codes.OK in
          fallback code message
      end
  end.

End Parse.

(** ** Requests, Go channels and the client's state *)

(** [p4.Update] and [p4.WriteRequest]; the payload of an update is kept
    as its serialized bytes. *)
Record Update := mkUpdate { UpdateType : Z; Entity : list Z }.

Record WriteRequest := mkWriteRequest {
  DeviceId : Z;
  RoleId : Z;
  ElectionId : Z * Z;
  Updates : list Update;
  Atomicity : Z
}.

(** The heap of request objects: the address of an object is its index.
    [cloned] marks the objects allocated by [proto.Clone] inside [Write];
    they are referenced from the queued [p4Write] only, so no caller
    holds a pointer to them. *)
Record cell := mkCell { cloned : bool; content : WriteRequest }.

Abbreviation heap := (list cell) (only parsing).

(** A pointer to a [p4.WriteRequest]: [None] is nil. *)
Abbreviation reqptr := (option nat) (only parsing).

Definition deref (h : heap) (p : reqptr) : option WriteRequest :=
  match p with
  | None => None
  | Some a => content <$> h !! a
  end.

(** [proto.Clone(req)] as a request pointer: nil for nil, else a fresh
    object with the same (deep) value. *)
Definition Clone (h : heap) (req : reqptr) : option (heap * reqptr) :=
  match req with
  | None => Some (h, None)
  | Some a =>
      match h !! a with
      | Some c => Some (h ++ [mkCell true (content c)], Some (length h))
      | None => None
      end
  end.

(** A Go channel: capacity, buffered values, number of receivers parked
    on it, and (a history variable) every value sent on it so far. *)
Record chan (A : Type) := mkChan {
  ch_cap : nat;
  ch_buf : list A;
  ch_recvq : nat;
  ch_sent : list A
}.
Arguments mkChan {A}.
Arguments ch_cap {A}.
Arguments ch_buf {A}.
Arguments ch_recvq {A}.
Arguments ch_sent {A}.

(** [make(chan A, size)]: panics on a negative size (the allocation
    limit for a huge size is not modelled). *)
Definition make_chan {A} (size : Z) : option (chan A) :=
  if decide (size < 0) then None else Some (mkChan (Z.to_nat size) [] 0%nat []).

(** [ch <- v] when it can proceed: a parked receiver takes the value
    directly, else the value goes to a free buffer slot.  [None]: the
    send has to wait. *)
Definition chan_send {A} (v : A) (c : chan A) : option (chan A) :=
  if decide (0 < ch_recvq c)%nat
  then Some (mkChan (ch_cap c) (ch_buf c) (pred (ch_recvq c)) (ch_sent c ++ [v]))
  else if decide (length (ch_buf c) < ch_cap c)%nat
  then Some (mkChan (ch_cap c) (ch_buf c ++ [v]) (ch_recvq c) (ch_sent c ++ [v]))
  else None.

(** [<-ch] by a reader: the oldest buffered value is taken, or the
    reader parks. *)
Definition chan_recv {A} (c : chan A) : chan A :=
  match ch_buf c with
  | _ :: rest => mkChan (ch_cap c) rest (ch_recvq c) (ch_sent c)
  | [] => mkChan (ch_cap c) [] (S (ch_recvq c)) (ch_sent c)
  end.

(** [type p4Write struct]: [resp] is the identity of the channel. *)
Record p4Write := mkP4Write { req : reqptr; resp : nat }.

(** [type WriteTrace struct]; a [time.Duration] is a number of
    nanoseconds. *)
Record WriteTrace := mkWriteTrace {
  BatchSize : Z;
  Duration : Z;
  Errors : list slot
}.

(** The goroutine running [ListenForWrites]: at the receive of line 45,
    holding the received write (lines 46-48), or inside the transport
    call of line 49. *)
Inductive dispatcher :=
| DRecv
| DGot (write : p4Write)
| DCall (write : p4Write) (start : Z).

(** A goroutine started at line 51, with the arguments of
    [processWriteResponse]: before the send of line 59, before the
    offer of lines 61-72, or finished. *)
Inductive task :=
| TRun (write : p4Write) (err : option error) (batchSize : Z) (start : Z)
       (traceChan : option nat)
| TOffer (write : p4Write) (trace : WriteTrace) (traceChan : option nat)
| TDone (write : p4Write).

(** History of the run. *)
Inductive event :=
| EvIntake (write : p4Write) (v : option WriteRequest)
| EvEnqueue (write : p4Write)
| EvInvoke (write : p4Write) (payload : option WriteRequest)
| EvReturn (write : p4Write)
| EvDeliver (write : p4Write) (errors : list slot)
| EvTrace (trace : WriteTrace)
| EvDiscard (trace : WriteTrace).

Record state := mkState {
  writeTraceChan : option nat;        (* c.writeTraceChan, None is nil *)
  writes : list p4Write;              (* the buffer of c.writes *)
  mem : heap;
  sinks : list (chan (list slot));    (* the channels made at line 31 *)
  traces : list (chan WriteTrace);    (* the trace channels made by callers *)
  senders : list p4Write;             (* callers of Write at the send of line 32 *)
  disp : dispatcher;
  tasks : list task;
  stdout : list string;
  log : list event
}.

(** What the environment and the goroutines can do next. *)
Inductive action :=
| NewRequest (v : WriteRequest)
| Mutate (a : nat) (v : WriteRequest)
| MakeTraceChan (size : nat)
| CallSetWriteTraceChan (traceChan : option nat)
| WriteBegin (r : reqptr)
| WriteSend (k : nat)
| ListenRecv
| ListenInvoke (now : Z)
| TransportReturn (err : option error)
| ProcessSend (k : nat) (now : Z)
| ProcessOffer (k : nat)
| ReadSink (ch : nat)
| ReadTrace (tc : nat).

(** Field updates of [state]. *)
Definition set_writeTraceChan (x : option nat) (s : state) : state :=
  mkState x (writes s) (mem s) (sinks s) (traces s) (senders s) (disp s)
          (tasks s) (stdout s) (log s).
Definition set_writes (x : list p4Write) (s : state) : state :=
  mkState (writeTraceChan s) x (mem s) (sinks s) (traces s) (senders s) (disp s)
          (tasks s) (stdout s) (log s).
Definition set_mem (x : heap) (s : state) : state :=
  mkState (writeTraceChan s) (writes s) x (sinks s) (traces s) (senders s) (disp s)
          (tasks s) (stdout s) (log s).
Definition set_sinks (x : list (chan (list slot))) (s : state) : state :=
  mkState (writeTraceChan s) (writes s) (mem s) x (traces s) (senders s) (disp s)
          (tasks s) (stdout s) (log s).
Definition set_traces (x : list (chan WriteTrace)) (s : state) : state :=
  mkState (writeTraceChan s) (writes s) (mem s) (sinks s) x (senders s) (disp s)
          (tasks s) (stdout s) (log s).
Definition set_senders (x : list p4Write) (s : state) : state :=
  mkState (writeTraceChan s) (writes s) (mem s) (sinks s) (traces s) x (disp s)
          (tasks s) (stdout s) (log s).
Definition set_disp (x : dispatcher) (s : state) : state :=
  mkState (writeTraceChan s) (writes s) (mem s) (sinks s) (traces s) (senders s) x
          (tasks s) (stdout s) (log s).
Definition set_tasks (x : list task) (s : state) : state :=
  mkState (writeTraceChan s) (writes s) (mem s) (sinks s) (traces s) (senders s)
          (disp s) x (stdout s) (log s).
Definition print (line : string) (s : state) : state :=
  mkState (writeTraceChan s) (writes s) (mem s) (sinks s) (traces s) (senders s)
          (disp s) (tasks s) (stdout s ++ [line]) (log s).
Definition record (e : event) (s : state) : state :=
  mkState (writeTraceChan s) (writes s) (mem s) (sinks s) (traces s) (senders s)
          (disp s) (tasks s) (stdout s) (log s ++ [e]).

(** The client before any call: nothing queued, no trace channel set,
    the dispatcher at its receive. *)
Definition init : state :=
  mkState None [] [] [] [] [] DRecv [] [] [].

Section Client.

Variable UnmarshalAny : Any -> Error + string.
(** [c.batchSize] and the capacity of [c.writes]; this file never
    assigns them. *)
Variable batchSize : Z.
Variable writesCap : nat.

(** [Write], lines 31 and 33: the response channel is made with
    capacity [c.batchSize], the request is cloned, and the caller
    stands at the send of line 32. *)
Definition Write_begin (r : reqptr) (s : state) : option state :=
  res ← make_chan batchSize;
  hq ← Clone (mem s) r;
  let write := mkP4Write hq.2 (length (sinks s)) in
  Some (record (EvIntake write (deref (mem s) r))
         (set_senders (senders s ++ [write])
           (set_sinks (sinks s ++ [res])
             (set_mem hq.1 s)))).

(** [Write], lines 32 and 36: the send of the [k]-th waiting caller
    completes; the dispatcher parked at an empty channel takes the
    value directly, else a free buffer slot is needed. *)
Definition Write_send (k : nat) (s : state) : option state :=
  write ← senders s !! k;
  let s' := record (EvEnqueue write) (set_senders (delete k (senders s)) s) in
  match disp s, writes s with
  | DRecv, [] => Some (set_disp (DGot write) s')
  | _, _ =>
      if decide (length (writes s) < writesCap)%nat
      then Some (set_writes (writes s ++ [write]) s')
      else None
  end.

(** [SetWriteTraceChan], line 40; a non-nil argument is a channel
    that exists. *)
Definition SetWriteTraceChan (traceChan : option nat) (s : state) : option state :=
  match traceChan with
  | Some tc =>
      if decide (tc < length (traces s))%nat
      then Some (set_writeTraceChan traceChan s) else None
  | None => Some (set_writeTraceChan None s)
  end.

(** [ListenForWrites], line 45: the receive from a non-empty buffer. *)
Definition Listen_recv (s : state) : option state :=
  match disp s, writes s with
  | DRecv, write :: rest => Some (set_disp (DGot write) (set_writes rest s))
  | _, _ => None
  end.

(** [ListenForWrites], lines 46-49: the start time is taken and the
    transport is invoked with the request. *)
Definition Listen_invoke (now : Z) (s : state) : option state :=
  match disp s with
  | DGot write =>
      Some (record (EvInvoke write (deref (mem s) (req write)))
             (set_disp (DCall write now) s))
  | _ => None
  end.

(** [ListenForWrites], lines 49-51: the transport returns [err], the
    goroutine is started with the arguments as they are now, and the
    loop is back at its receive. *)
Definition Listen_go (err : option error) (s : state) : option state :=
  match disp s with
  | DCall write start =>
      Some (record (EvReturn write)
             (set_tasks (tasks s ++ [TRun write err batchSize start (writeTraceChan s)])
               (set_disp DRecv s)))
  | _ => None
  end.

(** [processWriteResponse], lines 56-59, for the [k]-th goroutine:
    the duration, the decoding, and the send on [write.resp]. *)
Definition process_send (k : nat) (now : Z) (s : state) : option state :=
  t ← tasks s !! k;
  match t with
  | TRun write err batchSize start traceChan =>
      let duration := now - start in
      errors ← parseP4RuntimeWriteError UnmarshalAny err batchSize;
      c ← sinks s !! resp write;
      c' ← chan_send errors c;
      Some (record (EvDeliver write errors)
             (set_tasks (<[k := TOffer write (mkWriteTrace batchSize duration errors)
                                      traceChan]> (tasks s))
               (set_sinks (<[resp write := c']> (sinks s)) s)))
  | _ => None
  end.

(** Lines 61-72: nothing for a nil channel; else the [select] sends
    if the send can proceed, and prints and goes on if not. *)
Definition offer (traceChan : option nat) (trace : WriteTrace) (s : state)
  : option state :=
  match traceChan with
  | None => Some s
  | Some tc =>
      c ← traces s !! tc;
      match chan_send trace c with
      | Some c' =>
          Some (record (EvTrace trace) (set_traces (<[tc := c']> (traces s)) s))
      | None =>
          Some (record (EvDiscard trace)
                 (print "Write trace channel full. Discarding trace" s))
      end
  end.

(** [processWriteResponse], lines 61-73, for the [k]-th goroutine. *)
Definition process_offer (k : nat) (s : state) : option state :=
  t ← tasks s !! k;
  match t with
  | TOffer write trace traceChan =>
      s' ← offer traceChan trace s;
      Some (set_tasks (<[k := TDone write]> (tasks s')) s')
  | _ => None
  end.

(** The environment: callers allocate and overwrite their own request
    objects (any object that [Clone] did not make), make trace
    channels, and read from channels.  The transport only reads the
    request it is given. *)
Definition new_request (v : WriteRequest) (s : state) : option state :=
  Some (set_mem (mem s ++ [mkCell false v]) s).

Definition mutate (a : nat) (v : WriteRequest) (s : state) : option state :=
  c ← mem s !! a;
  if cloned c then None
  else Some (set_mem (<[a := mkCell false v]> (mem s)) s).

Definition make_trace_chan (size : nat) (s : state) : option state :=
  Some (set_traces (traces s ++ [mkChan size [] 0%nat []]) s).

Definition read_sink (ch : nat) (s : state) : option state :=
  c ← sinks s !! ch;
  Some (set_sinks (<[ch := chan_recv c]> (sinks s)) s).

Definition read_trace (tc : nat) (s : state) : option state :=
  c ← traces s !! tc;
  Some (set_traces (<[tc := chan_recv c]> (traces s)) s).

(** One step; [None] when the action cannot proceed in [s]. *)
Definition exec (a : action) (s : state) : option state :=
  match a with
  | NewRequest v => new_request v s
  | Mutate a v => mutate a v s
  | MakeTraceChan size => make_trace_chan size s
  | CallSetWriteTraceChan tc => SetWriteTraceChan tc s
  | WriteBegin r => Write_begin r s
  | WriteSend k => Write_send k s
  | ListenRecv => Listen_recv s
  | ListenInvoke now => Listen_invoke now s
  | TransportReturn err => Listen_go err s
  | ProcessSend k now => process_send k now s
  | ProcessOffer k => process_offer k s
  | ReadSink ch => read_sink ch s
  | ReadTrace tc => read_trace tc s
  end.

(** A schedule, run from [s]. *)
Fixpoint run (acts : list action) (s : state) : option state :=
  match acts with
  | [] => Some s
  | a :: rest =>
      match exec a s with
      | Some s' => run rest s'
      | None => None
      end
  end.

(** The states of the runs from [init]. *)
Inductive reachable : state -> Prop :=
| reachable_init : reachable init
| reachable_step a s s' : reachable s -> exec a s = Some s' -> reachable s'.

(** [RemainingWrites], line 115. *)
Definition RemainingWrites (s : state) : bool :=
  bool_decide (0 < length (writes s))%nat.

End Client.

(** ** Predicates of the statements *)

(** The three-part guard of line 81 of write.go. *)
Definition structured (st : Status) (N : Z) : Prop :=
  GetCode st = codes.Unknown /\ N > 0 /\ Z.of_nat (length (GetDetails st)) = N.

(** ** Projections of the history *)

Definition intaken (l : list event) : list p4Write :=
  omap (fun e => match e with EvIntake w _ => Some w | _ => None end) l.

Definition enqueued (l : list event) : list p4Write :=
  omap (fun e => match e with EvEnqueue w => Some w | _ => None end) l.

Definition invoked (l : list event) : list p4Write :=
  omap (fun e => match e with EvInvoke w _ => Some w | _ => None end) l.

Definition returned (l : list event) : list p4Write :=
  omap (fun e => match e with EvReturn w => Some w | _ => None end) l.

(** Transport calls started and not yet returned. *)
Definition in_flight (l : list event) : Z :=
  Z.of_nat (length (invoked l)) - Z.of_nat (length (returned l)).

(** ** Where the pending writes are *)

Definition task_write (t : task) : p4Write :=
  match t with
  | TRun w _ _ _ _ => w
  | TOffer w _ _ => w
  | TDone w => w
  end.

(** The goroutine is past its send of line 59. *)
Definition processed (t : task) : Prop :=
  match t with
  | TRun _ _ _ _ _ => False
  | _ => True
  end.

Definition disp_got (d : dispatcher) : list p4Write :=
  match d with DGot w => [w] | _ => [] end.

Definition disp_call (d : dispatcher) : list p4Write :=
  match d with DCall w _ => [w] | _ => [] end.

(** Every pending write of the client, oldest first up to the callers
    still at their send. *)
Definition all_writes (s : state) : list p4Write :=
  (task_write <$> tasks s) ++ disp_call (disp s) ++ disp_got (disp s)
  ++ writes s ++ senders s.

(** Every channel of [sk] is in [sk'] with the same history of sends. *)
Definition sink_frame {A} (sk sk' : list (chan A)) : Prop :=
  forall ch c, sk !! ch = Some c ->
    exists c', sk' !! ch = Some c' /\ ch_sent c' = ch_sent c.

(** ** Invariants of the runs *)

Section Invariants.

Variable batchSize : Z.

Definition trace_ok (tr : WriteTrace) : Prop :=
  BatchSize tr = batchSize /\ Z.of_nat (length (Errors tr)) = batchSize.

Definition chan_ok (tr : list (chan WriteTrace)) (traceChan : option nat) : Prop :=
  match traceChan with
  | Some tc => (tc < length tr)%nat
  | None => True
  end.

(** Nothing was sent yet on the response channel of [w]. *)
Definition unsent (sk : list (chan (list slot))) (w : p4Write) : Prop :=
  exists c, sk !! resp w = Some c /\ ch_sent c = [].

Definition task_ok (sk : list (chan (list slot))) (tr : list (chan WriteTrace))
           (t : task) : Prop :=
  match t with
  | TRun w _ bs _ tc => bs = batchSize /\ chan_ok tr tc /\ unsent sk w
  | TOffer w trace tc =>
      trace_ok trace /\ chan_ok tr tc
      /\ exists c, sk !! resp w = Some c /\ ch_sent c = [Errors trace]
  | TDone w =>
      exists c errors, sk !! resp w = Some c /\ ch_sent c = [errors]
        /\ Z.of_nat (length errors) = batchSize
  end.

(** The writes that no goroutine of line 51 holds yet. *)
Definition held (s : state) : list p4Write :=
  disp_call (disp s) ++ disp_got (disp s) ++ writes s ++ senders s.

(** The queue: the history of sends, calls and returns against the
    places the writes are in. *)
Record queue_inv (s : state) : Prop := {
  inv_returned : returned (log s) = task_write <$> tasks s;
  inv_invoked : invoked (log s) = returned (log s) ++ disp_call (disp s);
  inv_enqueued :
    enqueued (log s) = invoked (log s) ++ disp_got (disp s) ++ writes s
}.

(** Identity: the writes taken in are the sent ones and the waiting
    ones, and the i-th of them owns the i-th response channel. *)
Record ident_inv (s : state) : Prop := {
  inv_intaken : intaken (log s) ≡ₚ enqueued (log s) ++ senders s;
  inv_resp : resp <$> intaken (log s) = seq 0 (length (sinks s))
}.

(** The heap: a write taken in with value [v] still has that value,
    in an object made by [Clone]; a call was made with the value
    taken in. *)
Record heap_inv (s : state) : Prop := {
  inv_intake_value : forall w v, EvIntake w v ∈ log s ->
    deref (mem s) (req w) = v
    /\ forall a, req w = Some a -> exists c, mem s !! a = Some c /\ cloned c = true;
  inv_invoke_value : forall w v, EvInvoke w v ∈ log s -> EvIntake w v ∈ log s
}.

(** The channels. *)
Record chan_inv (s : state) : Prop := {
  inv_sink : forall ch c, sinks s !! ch = Some c ->
    ch_cap c = Z.to_nat batchSize /\ (length (ch_buf c) <= length (ch_sent c))%nat;
  inv_unsent : forall w, w ∈ held s -> unsent (sinks s) w;
  inv_tasks : forall k t, tasks s !! k = Some t -> task_ok (sinks s) (traces s) t;
  inv_traceChan : chan_ok (traces s) (writeTraceChan s);
  inv_traces : forall tc c tr, traces s !! tc = Some c -> tr ∈ ch_sent c -> trace_ok tr
}.

End Invariants.

(** The send of line 59 never has to wait: in every reachable state,
    every goroutine that stands before it can take the step. *)
Definition sink_write_never_waits (batchSize : Z) : Prop :=
  forall (UnmarshalAny : Any -> Error + string) (writesCap : nat)
         s k w err bs start tc now,
    reachable UnmarshalAny batchSize writesCap s ->
    tasks s !! k = Some (TRun w err bs start tc) ->
    is_Some (exec UnmarshalAny batchSize writesCap (ProcessSend k now) s).

(** ** Tactics *)

(** Unfolds one step into the cases of its action. *)
Ltac step_cases H :=
  match type of H with
  | exec _ _ _ ?a ?s = Some _ =>
      destruct s; destruct a; simpl in *;
      unfold new_request, mutate, make_trace_chan, SetWriteTraceChan,
             Write_begin, Write_send, Listen_recv, Listen_invoke, Listen_go,
             process_send, process_offer, offer, read_sink, read_trace,
             make_chan in H;
      repeat (simplify_option_eq; try case_match);
      simplify_option_eq
  end.

(** The events of a history extended by [e]. *)
Ltac old_event :=
  let Hin := fresh "Hin" in
  intros ? ? Hin; simpl in Hin;
  first [ left; exact Hin
        | apply elem_of_app in Hin as [Hin|Hin];
          [left; exact Hin | apply list_elem_of_singleton in Hin; discriminate Hin] ].

(** ** A decoder and inputs for the examples *)

Module Sample.

(** A stand-in for [ptypes.UnmarshalAny] on [p4.Error]: the type URL
    has to name the message, and the payload is the canonical code
    followed by nothing else. *)
Definition unmarshal (d : Any) : Error + string :=
  if decide (TypeUrl d = "type.googleapis.com/p4.v1.Error"%string)
  then match Value d with
       | [c] => inl (mkError c "" "" 0 None)
       | _ => inr "proto: cannot parse invalid wire-format data"%string
       end
  else inr "mismatched message type"%string.

Definition good (c : Z) : Any := mkAny "type.googleapis.com/p4.v1.Error" [c].
Definition bad : Any := mkAny "type.googleapis.com/p4.v1.Error" [].

Definition request (n : nat) : WriteRequest :=
  mkWriteRequest 1 0 (0, 1) (replicate n (mkUpdate 1 [])) 0.

(** A failure with three detail records, the last one malformed. *)
Definition status3 : Status := mkStatus codes.Unknown "" [good 5; good 9; bad].

(** One write of three updates through a client with a queue of
    capacity 1 and a trace channel of capacity 1, up to the start of
    the goroutine of line 51; the caller overwrites its request while
    the write waits at the send of line 32. *)
Definition setup : list action :=
  [ NewRequest (request 3); MakeTraceChan 1; CallSetWriteTraceChan (Some 0%nat) ].

Definition dispatch : list action :=
  [ Mutate 0 (request 1); WriteSend 0; ListenInvoke 100;
    TransportReturn (Some (PlainError "EOF")) ].

Definition before_send : list action :=
  setup ++ [WriteBegin (Some 0%nat)] ++ dispatch.

Definition after_send : list action := before_send ++ [ProcessSend 0 250].

(** The write queued by [before_send]: the copy is the object at
    address 1, the response channel is channel 0. *)
Definition write0 : p4Write := mkP4Write (Some 1%nat) 0.

(** The trace of that write for batch size 2. *)
Definition trace0 : WriteTrace :=
  mkWriteTrace 2 150 (replicate 2 (Some (mkError 0 "EOF" "" 0 None))).

Definition state_after (batchSize : Z) (acts : list action) : state :=
  default init (run unmarshal batchSize 1 acts init).

End Sample.

(** ** Further projections and invariants *)

Definition delivered (l : list event) : list p4Write :=
  omap (fun e => match e with EvDeliver w _ => Some w | _ => None end) l.

Definition discarded (l : list event) : list WriteTrace :=
  omap (fun e => match e with EvDiscard tr => Some tr | _ => None end) l.

(** The line printed at line 70. *)
Definition notice : string := "Write trace channel full. Discarding trace".

Section Telemetry.

Variable batchSize : Z.

(** The history of deliveries and offers against the goroutines, what
    was printed, and the channels of a client whose batch size is
    negative. *)
Record telemetry_inv (s : state) : Prop := {
  inv_offer_log : forall k w tr tc,
    tasks s !! k = Some (TOffer w tr tc) -> EvDeliver w (Errors tr) ∈ log s;
  inv_trace_log : forall tr,
    EvTrace tr ∈ log s \/ EvDiscard tr ∈ log s ->
    trace_ok batchSize tr /\ exists w, EvDeliver w (Errors tr) ∈ log s;
  inv_deliver_log : forall w errors,
    EvDeliver w errors ∈ log s ->
    exists k t, tasks s !! k = Some t /\ processed t /\ task_write t = w;
  inv_stdout : stdout s = replicate (length (discarded (log s))) notice;
  inv_negative : batchSize < 0 -> sinks s = []
}.

End Telemetry.

Module Sample2.

(** The run of [Sample.before_send] stopped inside the transport call. *)
Definition in_call : list action :=
  Sample.setup ++ [WriteBegin (Some 0%nat); Mutate 0 (Sample.request 1);
                   WriteSend 0; ListenInvoke 100].

(** A second write queued behind the first one while the transport call
    of the first is in flight. *)
Definition two_writes : list action :=
  in_call ++ [WriteBegin (Some 0%nat); WriteSend 0].

(** A run with a trace channel of capacity 1 that nobody reads: the
    trace of the first write fills it, the trace of the second one is
    dropped. *)
Definition full_trace : list action :=
  two_writes
  ++ [ TransportReturn None; ProcessSend 0 250; ProcessOffer 0;
       ListenRecv; ListenInvoke 300; TransportReturn None;
       ProcessSend 1 400; ProcessOffer 1 ].

(** The second write of [two_writes]: the copy is the object at
    address 2, the response channel is channel 1. *)
Definition write1 : p4Write := mkP4Write (Some 2%nat) 1.

(** The first call has returned and the call of the second write is in
    flight. *)
Definition second_call : list action :=
  two_writes ++ [TransportReturn None; ListenRecv; ListenInvoke 300].


End Sample2.

(** ** Decoding: [parseP4RuntimeWriteError] *)

Lemma lookup_map {A B} (f : A -> B) (l : list A) (i : nat) :
  map f l !! i = f <$> l !! i.
Proof.
  revert i. induction l as [|x l IH]; intros [|i]; simpl; auto.
Qed.

Section ParseFacts.

Variable UnmarshalAny : Any -> Error + string.

Lemma fillFrom_spec n : forall i p errors,
  (i + n <= length errors)%nat ->
  fillFrom i n p errors
  = Some (take i errors ++ replicate n p ++ drop (i + n) errors).
Proof.
  induction n as [|n IH]; intros i p errors Hlen; simpl.
  - rewrite Nat.add_0_r, take_drop. reflexivity.
  - unfold store. destruct (decide (i < length errors)%nat) as [Hi|Hi]; [|lia].
    rewrite IH by (rewrite length_insert; lia).
    f_equal.
    rewrite take_S_r with (x := p) by (apply list_lookup_insert_eq; lia).
    rewrite take_insert_ge by lia.
    rewrite drop_insert_lt by lia.
    rewrite <- app_assoc. simpl.
    rewrite ?Nat.add_succ_r. reflexivity.
Qed.

Lemma decodeDetails_spec details : forall i errors,
  (i + length details <= length errors)%nat ->
  decodeDetails UnmarshalAny i details errors
  = Some (take i errors
          ++ map (fun d => Some (decodeDetail UnmarshalAny d)) details
          ++ drop (i + length details) errors).
Proof.
  induction details as [|d rest IH]; intros i errors Hlen; simpl in *.
  - rewrite Nat.add_0_r, take_drop. reflexivity.
  - unfold store. destruct (decide (i < length errors)%nat) as [Hi|Hi].
    2:{ lia. }
    rewrite IH by (rewrite length_insert; lia).
    f_equal.
    rewrite take_S_r with (x := Some (decodeDetail UnmarshalAny d))
      by (apply list_lookup_insert_eq; lia).
    rewrite take_insert_ge by lia.
    rewrite drop_insert_lt by lia.
    rewrite <- app_assoc. simpl.
    rewrite ?Nat.add_succ_r. reflexivity.
Qed.

End ParseFacts.

Section ParseClaims.

Variable UnmarshalAny : Any -> Error + string.

Local Abbreviation parse := (parseP4RuntimeWriteError UnmarshalAny).

(** The stand-in error of lines 104-107. *)
Lemma parse_nil_error N :
  0 <= N ->
  parse None N
  = Some (replicate (Z.to_nat N) (Some (mkError codes.OK "" "" 0 None))).
Proof.
  intros HN. unfold parseP4RuntimeWriteError, makeErrors.
  destruct (decide (N < 0)) as [?|_]; [lia|].
  rewrite fillFrom_spec by (simpl; lia).
  rewrite length_replicate, drop_ge by (rewrite length_replicate; simpl; lia).
  simpl. rewrite app_nil_r. reflexivity.
Qed.

Lemma parse_structured e N :
  structured (Convert e) N ->
  parse (Some e) N
  = Some (map (fun d => Some (decodeDetail UnmarshalAny d))
              (GetDetails (Convert e))).
Proof.
  intros (Hc & Hpos & Hlen). unfold parseP4RuntimeWriteError, makeErrors.
  destruct (decide (N < 0)) as [?|_]; [lia|].
  rewrite !bool_decide_eq_true_2 by assumption. simpl.
  rewrite decodeDetails_spec by (rewrite length_replicate; simpl; lia).
  rewrite drop_ge by (rewrite length_replicate; simpl; lia).
  simpl. rewrite app_nil_r. reflexivity.
Qed.

Lemma parse_uniform e N :
  0 <= N -> ~ structured (Convert e) N ->
  parse (Some e) N
  = Some (replicate (Z.to_nat N)
            (Some (mkError 0 (GetMessage (Convert e)) "" 0 None))).
Proof.
  intros HN Hns. unfold parseP4RuntimeWriteError, makeErrors.
  destruct (decide (N < 0)) as [?|_]; [lia|].
  destruct (bool_decide _ && bool_decide _ && bool_decide _) eqn:Hg.
  - exfalso. apply Hns.
    apply andb_true_iff in Hg as [Hg H3]. apply andb_true_iff in Hg as [H1 H2].
    apply bool_decide_eq_true_1 in H1, H2, H3. repeat split; assumption.
  - rewrite fillFrom_spec by (simpl; lia).
    rewrite length_replicate, drop_ge by (rewrite length_replicate; simpl; lia).
    simpl. rewrite app_nil_r. reflexivity.
Qed.

Lemma parse_total (err : option error) (N : Z) :
  0 <= N ->
  exists errors, parse err N = Some errors /\ Z.of_nat (length errors) = N.
Proof.
  intros HN. destruct err as [e|].
  - destruct (decide (structured (Convert e) N)) as [Hs|Hs].
    + eexists. split; [apply parse_structured, Hs|].
      rewrite length_map. apply Hs.
    + eexists. split; [apply parse_uniform; assumption|].
      rewrite length_replicate. lia.
  - eexists. split; [apply parse_nil_error; assumption|].
    rewrite length_replicate. lia.
Qed.

(** C1: for every batch size [N >= 0] and every transport outcome (nil
    or any error), [parseP4RuntimeWriteError] does not panic and
    returns a slice of exactly [N] entries, none of them nil. *)
Theorem parse_returns_batchSize_results (err : option error) (N : Z) :
  0 <= N ->
  exists errors,
    parse err N = Some errors
    /\ Z.of_nat (length errors) = N
    /\ Forall is_Some errors.
Proof.
  intros HN. destruct err as [e|].
  - destruct (decide (structured (Convert e) N)) as [Hs|Hs].
    + eexists. split; [apply parse_structured, Hs|]. split.
      * rewrite length_map. apply Hs.
      * apply Forall_map, Forall_forall. intros d _. simpl. eauto.
    + eexists. split; [apply parse_uniform; assumption|]. split.
      * rewrite length_replicate. lia.
      * apply Forall_replicate. eauto.
  - eexists. split; [apply parse_nil_error; assumption|]. split.
    + rewrite length_replicate. lia.
    + apply Forall_replicate. eauto.
Qed.

(** C4: when the transport call succeeds (nil error), the result has
    [N] entries and each one carries the code OK and an empty message. *)
Theorem parse_success_all_OK (N : Z) :
  0 <= N ->
  exists errors,
    parse None N = Some errors
    /\ Z.of_nat (length errors) = N
    /\ forall i p, errors !! i = Some p ->
         exists e, p = Some e /\ CanonicalCode e = codes.OK /\ Message e = ""%string.
Proof.
  intros HN. eexists. split; [apply parse_nil_error; assumption|]. split.
  - rewrite length_replicate. lia.
  - intros i p Hi. apply lookup_replicate in Hi as [-> _]. eauto.
Qed.

(** C2: evaluated for batch size 5 and a failure classified Unavailable
    with no details, the code returns five entries with the aggregate
    message and canonical code 0 (OK): line 98 copies the message of
    the failure, and no line copies its code. *)
Theorem parse_unavailable_reports_code_OK :
  parse (Some (StatusError (mkStatus codes.Unavailable "connection refused" []))) 5
  = Some (replicate 5 (Some (mkError codes.OK "connection refused" "" 0 None))).
Proof. reflexivity. Qed.

(** C3: for a failure classified Unknown with exactly [N] detail
    records, entry [i] of the result is decoded from detail [i] alone:
    the unmarshalled error when that succeeds, else the synthetic
    error (code Internal, the text of the decode failure, space
    "p4rt-go"); and two failures whose details agree at [i] give the
    same entry [i], whatever their other details are. *)
Theorem parse_details_positionwise (st : Status) (N : Z) :
  GetCode st = codes.Unknown ->
  Z.of_nat (length (GetDetails st)) = N ->
  exists errors,
    parse (Some (StatusError st)) N = Some errors
    /\ Z.of_nat (length errors) = N
    /\ (forall i d p4Err,
          GetDetails st !! i = Some d -> UnmarshalAny d = inl p4Err ->
          errors !! i = Some (Some p4Err))
    /\ (forall i d msg,
          GetDetails st !! i = Some d -> UnmarshalAny d = inr msg ->
          errors !! i = Some (Some (mkError codes.Internal msg "p4rt-go" 0 None)))
    /\ (forall st' errors' i,
          GetCode st' = codes.Unknown ->
          Z.of_nat (length (GetDetails st')) = N ->
          parse (Some (StatusError st')) N = Some errors' ->
          GetDetails st' !! i = GetDetails st !! i ->
          errors' !! i = errors !! i).
Proof.
  intros Hc Hlen.
  assert (Hall : forall st0, GetCode st0 = codes.Unknown ->
            Z.of_nat (length (GetDetails st0)) = N ->
            parse (Some (StatusError st0)) N
            = Some (map (fun d => Some (decodeDetail UnmarshalAny d))
                        (GetDetails st0))).
  { intros st0 Hc0 Hlen0. destruct (GetDetails st0) as [|d0 ds0] eqn:Hd0.
    - simpl in Hlen0. rewrite <- Hlen0.
      rewrite parse_uniform; [reflexivity|lia|].
      intros (_ & Hpos & _). lia.
    - rewrite parse_structured; simpl; [rewrite Hd0; reflexivity|].
      repeat split; [assumption| |simpl; rewrite Hd0; assumption].
      rewrite <- Hlen0. simpl. lia. }
  eexists. split; [apply Hall; assumption|].
  split; [rewrite length_map; assumption|].
  split; [|split].
  - intros i d p4Err Hi Hu. rewrite lookup_map, Hi. simpl.
    unfold decodeDetail. rewrite Hu. reflexivity.
  - intros i d msg Hi Hu. rewrite lookup_map, Hi. simpl.
    unfold decodeDetail. rewrite Hu. reflexivity.
  - intros st' errors' i Hc' Hlen' Hp Hi.
    rewrite Hall in Hp by assumption. injection Hp as <-.
    rewrite !lookup_map, Hi. reflexivity.
Qed.

End ParseClaims.

(** ** The runs of the client *)

Lemma intaken_snoc l e :
  intaken (l ++ [e])
  = intaken l ++ match e with EvIntake w _ => [w] | _ => [] end.
Proof. unfold intaken. rewrite omap_app. destruct e; reflexivity. Qed.

Lemma enqueued_snoc l e :
  enqueued (l ++ [e])
  = enqueued l ++ match e with EvEnqueue w => [w] | _ => [] end.
Proof. unfold enqueued. rewrite omap_app. destruct e; reflexivity. Qed.

Lemma invoked_snoc l e :
  invoked (l ++ [e])
  = invoked l ++ match e with EvInvoke w _ => [w] | _ => [] end.
Proof. unfold invoked. rewrite omap_app. destruct e; reflexivity. Qed.

Lemma returned_snoc l e :
  returned (l ++ [e])
  = returned l ++ match e with EvReturn w => [w] | _ => [] end.
Proof. unfold returned. rewrite omap_app. destruct e; reflexivity. Qed.

Lemma intaken_elem w l : w ∈ intaken l -> exists v, EvIntake w v ∈ l.
Proof.
  unfold intaken. rewrite list_elem_of_omap. intros (e & He & Hw).
  destruct e; try discriminate. injection Hw as ->. eauto.
Qed.

Lemma task_write_insert k t t' (l : list task) :
  l !! k = Some t -> task_write t' = task_write t ->
  task_write <$> <[k := t']> l = task_write <$> l.
Proof.
  intros Hk Hw. rewrite list_fmap_insert, Hw.
  apply list_insert_id. rewrite list_lookup_fmap, Hk. reflexivity.
Qed.

Section Runs.

Variable UnmarshalAny : Any -> Error + string.
Variable batchSize : Z.
Variable writesCap : nat.

Local Abbreviation exec := (exec UnmarshalAny batchSize writesCap).
Local Abbreviation run := (run UnmarshalAny batchSize writesCap).
Local Abbreviation reachable := (reachable UnmarshalAny batchSize writesCap).

Lemma run_app acts1 acts2 s :
  run (acts1 ++ acts2) s = run acts1 s ≫= run acts2.
Proof.
  revert s. induction acts1 as [|a acts1 IH]; intros s; simpl; [reflexivity|].
  destruct (exec a s); simpl; auto.
Qed.

Lemma run_reachable acts s s' :
  reachable s -> run acts s = Some s' -> reachable s'.
Proof.
  revert s. induction acts as [|a acts IH]; intros s Hs Hrun; simpl in Hrun.
  - congruence.
  - destruct (exec a s) as [s1|] eqn:Ha; [|discriminate].
    eapply IH; [|eassumption]. eapply reachable_step; eassumption.
Qed.

Lemma reachable_run s : reachable s -> exists acts, run acts init = Some s.
Proof.
  induction 1 as [|a s s' _ [acts IH] Ha].
  - exists []. reflexivity.
  - exists (acts ++ [a]). rewrite run_app, IH. simpl. rewrite Ha. reflexivity.
Qed.

(** *** The queue *)

Lemma queue_inv_step a s s' :
  exec a s = Some s' -> queue_inv s -> queue_inv s'.
Proof.
  intros H [I1 I2 I3]. step_cases H.
  all: split; simpl;
    rewrite ?returned_snoc, ?invoked_snoc, ?enqueued_snoc, ?app_nil_r;
    try assumption.
  all: rewrite ?I3, ?I2, ?I1.
  all: try (erewrite task_write_insert by (eassumption || reflexivity)).
  all: rewrite ?fmap_app, <- ?app_assoc; simpl; rewrite ?app_nil_r;
    try reflexivity.
Qed.

(** *** Identity of the writes *)

Lemma ident_inv_step a s s' :
  exec a s = Some s' -> ident_inv s -> ident_inv s'.
Proof.
  intros H [I1 I2]. step_cases H.
  all: split; simpl;
    rewrite ?intaken_snoc, ?enqueued_snoc, ?app_nil_r, ?length_insert;
    try assumption.
  1: rewrite I1, app_assoc; reflexivity.
  1: rewrite fmap_app, I2, length_app, Nat.add_1_r, seq_S; reflexivity.
  all: rewrite I1, <- app_assoc; apply Permutation_app_head; simpl;
    apply delete_Permutation; assumption.
Qed.

Lemma all_writes_enqueued s :
  queue_inv s -> all_writes s = enqueued (log s) ++ senders s.
Proof.
  intros [I1 I2 I3]. unfold all_writes.
  rewrite I3, I2, I1, <- !app_assoc. reflexivity.
Qed.

Lemma all_writes_resp s :
  queue_inv s -> ident_inv s ->
  resp <$> all_writes s ≡ₚ seq 0 (length (sinks s)).
Proof.
  intros Hq [I1 I2]. rewrite all_writes_enqueued by assumption.
  rewrite <- I1, I2. reflexivity.
Qed.

Lemma all_writes_NoDup s :
  queue_inv s -> ident_inv s -> NoDup (resp <$> all_writes s).
Proof.
  intros Hq Hi. rewrite all_writes_resp by assumption. apply NoDup_seq.
Qed.

(** *** The heap *)

Lemma heap_inv_frame s s' :
  (forall w v, EvIntake w v ∈ log s' ->
     EvIntake w v ∈ log s
     \/ (deref (mem s') (req w) = v
         /\ forall a, req w = Some a ->
              exists c, mem s' !! a = Some c /\ cloned c = true)) ->
  (forall w v, EvInvoke w v ∈ log s' ->
     EvInvoke w v ∈ log s \/ EvIntake w v ∈ log s') ->
  (forall e, e ∈ log s -> e ∈ log s') ->
  (forall a c, mem s !! a = Some c -> cloned c = true -> mem s' !! a = Some c) ->
  heap_inv s -> heap_inv s'.
Proof.
  intros Hin Hiv Hmono Hmem [I1 I2]. split.
  - intros w v Hw. destruct (Hin _ _ Hw) as [Hold|Hnew]; [|exact Hnew].
    destruct (I1 w v Hold) as [Hd Hc]. split.
    + destruct (req w) as [a|] eqn:Hr; [|assumption].
      destruct (Hc a eq_refl) as (c & Ha & Hcl). simpl in *.
      rewrite (Hmem _ _ Ha Hcl). rewrite Ha in Hd. assumption.
    + intros a Hr. destruct (Hc a Hr) as (c & Ha & Hcl). eauto.
  - intros w v Hw. destruct (Hiv _ _ Hw) as [Hold|Hnew]; [|exact Hnew].
    apply Hmono, I2, Hold.
Qed.

Lemma heap_inv_step a s s' :
  exec a s = Some s' -> queue_inv s -> ident_inv s -> heap_inv s -> heap_inv s'.
Proof.
  intros H Hq Hi Hh. step_cases H.
  all: eapply heap_inv_frame; [| | | |exact Hh]; simpl.
  all: try old_event.
  all: try (intros e He; first [exact He | apply elem_of_app; left; exact He]).
  all: try (intros; assumption).
  - (* NewRequest *)
    intros a c Ha _. apply lookup_app_l_Some. exact Ha.
  - (* Mutate *)
    intros a0 c Ha0 Hcl. rewrite list_lookup_insert_ne; [exact Ha0|].
    intros ->. congruence.
  - (* WriteBegin: the value taken in is the value of the copy *)
    intros w v Hin. apply elem_of_app in Hin as [Hin|Hin]; [left; exact Hin|].
    apply list_elem_of_singleton in Hin. injection Hin as -> ->. right.
    unfold Clone in *. destruct r as [a|]; simpl in *.
    + destruct (mem0 !! a) as [c|] eqn:Ha; simplify_eq. simpl. split.
      * rewrite lookup_app_r, Nat.sub_diag by lia. reflexivity.
      * intros a' [= <-]. eexists.
        split; [rewrite lookup_app_r, Nat.sub_diag by lia; reflexivity|].
        reflexivity.
    + simplify_eq. simpl. split; [reflexivity|]. intros a' [=].
  - (* WriteBegin: the heap grows *)
    intros a c Ha _. unfold Clone in *. destruct r as [a'|]; simpl in *.
    + destruct (mem0 !! a') eqn:Ha'; simplify_eq. simpl.
      apply lookup_app_l_Some. exact Ha.
    + simplify_eq. exact Ha.
  - (* ListenInvoke: the payload is the value taken in *)
    intros w v Hin. apply elem_of_app in Hin as [Hin|Hin]; [left; exact Hin|].
    apply list_elem_of_singleton in Hin. injection Hin as -> ->. right.
    assert (Hw : write ∈ intaken log0).
    { destruct Hi as [Hi _]. destruct Hq as [_ _ Hq]. simpl in Hi, Hq.
      rewrite Hi, Hq. apply elem_of_app. left. apply elem_of_app. right.
      apply list_elem_of_here. }
    apply intaken_elem in Hw as [v Hv]. apply elem_of_app. left.
    destruct (inv_intake_value _ Hh _ _ Hv) as [<- _]. exact Hv.
Qed.

(** *** The channels *)

Lemma parse_length err N errors :
  parseP4RuntimeWriteError UnmarshalAny err N = Some errors ->
  Z.of_nat (length errors) = N.
Proof.
  intros Hp. destruct (decide (0 <= N)) as [HN|HN].
  - destruct (parse_total UnmarshalAny err N HN) as (l & Hl & Hlen).
    congruence.
  - unfold parseP4RuntimeWriteError, makeErrors in Hp.
    destruct (decide (N < 0)); [discriminate|lia].
Qed.

Lemma unsent_frame sk sk' w : sink_frame sk sk' -> unsent sk w -> unsent sk' w.
Proof.
  intros Hf (c & Hc & Hs). destruct (Hf _ _ Hc) as (c' & Hc' & Hs').
  exists c'. split; [assumption|congruence].
Qed.

Lemma chan_ok_frame tr tr' tc :
  (length tr <= length tr')%nat -> chan_ok tr tc -> chan_ok tr' tc.
Proof. destruct tc; simpl; [lia|auto]. Qed.

Lemma task_ok_frame sk sk' tr tr' t :
  sink_frame sk sk' -> (length tr <= length tr')%nat ->
  task_ok batchSize sk tr t -> task_ok batchSize sk' tr' t.
Proof.
  intros Hf Hl. destruct t; simpl.
  - intros (Hb & Hc & Hu). eauto using unsent_frame, chan_ok_frame.
  - intros (Ht & Hc & c & Hs & Hh). destruct (Hf _ _ Hs) as (c' & Hc' & Hs').
    split; [assumption|]. split; [eauto using chan_ok_frame|].
    exists c'. split; [assumption|congruence].
  - intros (c & errs & Hs & Hh & Hlen). destruct (Hf _ _ Hs) as (c' & Hc' & Hs').
    exists c', errs. repeat split; [assumption|congruence|assumption].
Qed.

Lemma sink_frame_refl {A} (sk : list (chan A)) : sink_frame sk sk.
Proof. intros ch c Hc. eauto. Qed.

Lemma sink_frame_snoc {A} (sk : list (chan A)) c : sink_frame sk (sk ++ [c]).
Proof. intros ch c0 Hc. exists c0. split; [apply lookup_app_l_Some, Hc|reflexivity]. Qed.

Lemma sink_frame_recv {A} (sk : list (chan A)) ch c :
  sk !! ch = Some c -> sink_frame sk (<[ch := chan_recv c]> sk).
Proof.
  intros Hc ch' c0 Hc0. destruct (decide (ch' = ch)) as [->|Hne].
  - exists (chan_recv c). split.
    + apply list_lookup_insert_eq. eapply lookup_lt_Some, Hc.
    + assert (c0 = c) as -> by congruence.
      unfold chan_recv. destruct (ch_buf c); reflexivity.
  - exists c0. split; [|reflexivity]. rewrite list_lookup_insert_ne; auto.
Qed.

Lemma chan_send_Some {A} (v : A) (c c' : chan A) :
  chan_send v c = Some c' ->
  ch_cap c' = ch_cap c /\ ch_sent c' = ch_sent c ++ [v]
  /\ (length (ch_buf c') <= S (length (ch_buf c)))%nat.
Proof.
  unfold chan_send. intros Hs.
  destruct (decide (0 < ch_recvq c)%nat);
    [|destruct (decide (length (ch_buf c) < ch_cap c)%nat)];
    simplify_eq; simpl; rewrite ?length_app; simpl; repeat split; lia.
Qed.

Lemma chan_recv_props {A} (c : chan A) :
  ch_cap (chan_recv c) = ch_cap c /\ ch_sent (chan_recv c) = ch_sent c
  /\ (length (ch_buf (chan_recv c)) <= length (ch_buf c))%nat.
Proof. unfold chan_recv. destruct (ch_buf c); simpl; repeat split; lia. Qed.

Lemma chan_inv_frame s s' :
  sink_frame (sinks s) (sinks s') ->
  (forall ch c', sinks s' !! ch = Some c' ->
     (exists c, sinks s !! ch = Some c /\ ch_cap c' = ch_cap c
                /\ (length (ch_buf c') <= length (ch_buf c))%nat
                /\ ch_sent c' = ch_sent c)
     \/ (ch_cap c' = Z.to_nat batchSize
         /\ (length (ch_buf c') <= length (ch_sent c'))%nat)) ->
  (length (traces s) <= length (traces s'))%nat ->
  (forall w, w ∈ held s' -> w ∈ held s \/ unsent (sinks s') w) ->
  (forall k t, tasks s' !! k = Some t ->
     (exists k', tasks s !! k' = Some t)
     \/ task_ok batchSize (sinks s') (traces s') t) ->
  (writeTraceChan s' = writeTraceChan s
   \/ chan_ok (traces s') (writeTraceChan s')) ->
  (forall tc c tr, traces s' !! tc = Some c -> tr ∈ ch_sent c ->
     (exists tc' c0, traces s !! tc' = Some c0 /\ tr ∈ ch_sent c0)
     \/ trace_ok batchSize tr) ->
  chan_inv batchSize s -> chan_inv batchSize s'.
Proof.
  intros Hf Hsk Hlen Hheld Htasks Htc Htr [I1 I2 I3 I4 I5]. split.
  - intros ch c' Hc'. destruct (Hsk _ _ Hc') as [(c & Hc & Hcap & Hbuf & Hsent)|Hnew];
      [|exact Hnew].
    destruct (I1 _ _ Hc) as [Hcap0 Hbuf0]. split; [congruence|].
    rewrite Hsent. lia.
  - intros w Hw. destruct (Hheld _ Hw) as [Hold|Hnew]; [|exact Hnew].
    eapply unsent_frame; [exact Hf|]. apply I2, Hold.
  - intros k t Hk. destruct (Htasks _ _ Hk) as [[k' Hold]|Hnew]; [|exact Hnew].
    eapply task_ok_frame; [exact Hf|exact Hlen|]. eapply I3, Hold.
  - destruct Htc as [->|Hnew]; [|exact Hnew].
    eapply chan_ok_frame; [exact Hlen|exact I4].
  - intros tc c tr Hc Hin.
    destruct (Htr _ _ _ Hc Hin) as [(tc' & c0 & Hc0 & Hin0)|Hnew]; [|exact Hnew].
    eapply I5; eassumption.
Qed.

(** The response channel of a goroutine belongs to no other write. *)
Lemma task_resp_unique s k t :
  queue_inv s -> ident_inv s -> tasks s !! k = Some t ->
  (forall w, w ∈ held s -> resp w <> resp (task_write t))
  /\ (forall k' t', tasks s !! k' = Some t' -> k' <> k ->
        resp (task_write t') <> resp (task_write t)).
Proof.
  intros Hq Hi Hk. pose proof (all_writes_NoDup s Hq Hi) as Hnd.
  unfold all_writes in Hnd. rewrite fmap_app in Hnd.
  apply NoDup_app in Hnd as (Hnd & Hdisj & _).
  assert (Hlk : forall k0 t0, tasks s !! k0 = Some t0 ->
            (resp <$> (task_write <$> tasks s)) !! k0 = Some (resp (task_write t0))).
  { intros k0 t0 H0. rewrite !list_lookup_fmap, H0. reflexivity. }
  split.
  - intros w Hw Heq. eapply Hdisj.
    + eapply list_elem_of_lookup_2, Hlk, Hk.
    + rewrite <- Heq. apply list_elem_of_fmap_2. exact Hw.
  - intros k' t' Hk' Hne Heq. apply Hne.
    eapply NoDup_lookup; [exact Hnd|apply Hlk, Hk'|].
    rewrite Heq. apply Hlk, Hk.
Qed.

Lemma unsent_insert sk ch c w :
  resp w <> ch -> unsent sk w -> unsent (<[ch := c]> sk) w.
Proof.
  intros Hne (c0 & Hc0 & Hs). exists c0. split; [|assumption].
  rewrite list_lookup_insert_ne; auto.
Qed.

Lemma task_ok_insert sk tr ch c t :
  resp (task_write t) <> ch ->
  task_ok batchSize sk tr t -> task_ok batchSize (<[ch := c]> sk) tr t.
Proof.
  intros Hne. destruct t; simpl in *.
  - intros (Hb & Hc & Hu). eauto using unsent_insert.
  - intros (Ht & Hc & c0 & Hs & Hh). split; [assumption|]. split; [assumption|].
    exists c0. rewrite list_lookup_insert_ne; auto.
  - intros (c0 & errs & Hs & Hh & Hlen). exists c0, errs.
    rewrite list_lookup_insert_ne; auto.
Qed.

Lemma chan_inv_step a s s' :
  exec a s = Some s' -> queue_inv s -> ident_inv s ->
  chan_inv batchSize s -> chan_inv batchSize s'.
Proof.
  intros H Hq Hi Hc. step_cases H.
  all: try match goal with
       | Hp : parseP4RuntimeWriteError _ _ _ = Some _ |- _ => fail 1
       | |- _ =>
         eapply chan_inv_frame; [| | | | | | |exact Hc]; simpl;
         [ try first [apply sink_frame_refl | apply sink_frame_snoc
                     | apply sink_frame_recv; assumption]
         | try (intros ch c' Hc'; left; exists c'; auto; fail)
         | try (rewrite ?length_app, ?length_insert; lia)
         | unfold held; simpl; try (intros w Hw; left; exact Hw)
         | try (intros k' t' Hk'; left; eauto; fail)
         | try (left; reflexivity)
         | try (intros tc' c' tr' Hc' Hin'; left; eauto; fail) ]
       end.
  1:{ (* MakeTraceChan *)
    intros tc c tr Htc Hin. apply lookup_app_Some in Htc as [Htc|[_ Htc]].
    + left. eauto.
    + apply list_lookup_singleton_Some in Htc as [_ <-]. simpl in Hin.
      apply elem_of_nil in Hin. contradiction. }
  1:{ right. assumption. }
  1:{ right. exact I. }
  1:{ (* WriteBegin *)
    intros ch c' Hc'. apply lookup_app_Some in Hc' as [Hc'|[_ Hc']].
    + left. exists c'. auto.
    + apply list_lookup_singleton_Some in Hc' as [_ <-]. right. simpl.
      split; [reflexivity|lia]. }
  1:{ intros w Hw. rewrite !app_assoc in Hw. apply elem_of_app in Hw as [Hw|Hw].
    + left. rewrite !app_assoc. exact Hw.
    + right. apply list_elem_of_singleton in Hw as ->. eexists. simpl.
      split; [apply list_lookup_middle; reflexivity|reflexivity]. }
  (* WriteSend *)
  1-5: (intros w' Hw'; left;
    lazymatch goal with
    | Hk : ?l !! ?k = Some ?w0 |- _ =>
        pose proof (list_elem_of_lookup_2 _ _ _ Hk);
        pose proof (fun x => list_elem_of_delete_inv x k l)
    end;
    revert Hw';
    rewrite ?elem_of_app, ?elem_of_cons, ?elem_of_app, ?list_elem_of_singleton;
    intuition (subst; eauto)).

  1:{ (* Listen_go *)
    intros w Hw. left. apply elem_of_cons. right. exact Hw. }
  1:{ intros k t Hk. apply lookup_app_Some in Hk as [Hk|[_ Hk]]; [left; eauto|].
    apply list_lookup_singleton_Some in Hk as [_ <-]. right. simpl.
    split; [reflexivity|]. split; [apply (inv_traceChan _ _ Hc)|].
    apply (inv_unsent _ _ Hc). unfold held. simpl. apply list_elem_of_here. }
  1:{ (* process_send *)
    match goal with
    | Hk : tasks0 !! k = Some ?t |- _ =>
        destruct (task_resp_unique _ k t Hq Hi Hk) as [Hheld Htask];
        pose proof (inv_tasks _ _ Hc _ _ Hk) as (Hbs & Htc & c0 & Hc0 & Hs0)
    end.
    simpl in *. unfold held in Hheld. simpl in Hheld.
    match goal with
    | Hp : parseP4RuntimeWriteError _ _ _ = Some _ |- _ =>
        apply parse_length in Hp; rewrite Hbs in Hp; rename Hp into Hlen
    end.
    match goal with
    | Hs : chan_send _ ?c1 = Some _ |- _ =>
        apply chan_send_Some in Hs as (Hcap & Hsent & Hbuf);
        assert (c0 = c1) as -> by congruence
    end.
    destruct (inv_sink _ _ Hc _ _ Hc0) as [Hcap0 Hbuf0]. rewrite Hs0 in Hbuf0.
    simpl in Hbuf0. destruct Hc as [I1 I2 I3 I4 I5]. simpl in *.
    assert (Hlt : (resp write < length sinks0)%nat) by (eapply lookup_lt_Some, Hc0).
    rewrite Hs0 in Hsent. simpl in Hsent.
    split; simpl.
    - intros ch c Hch. apply list_lookup_insert_Some in Hch
        as [(<- & <- & _)|(Hne & Hch)]; [|eauto].
      split; [congruence|]. rewrite Hsent. simpl. lia.
    - intros w Hw. apply unsent_insert; [apply Hheld, Hw|]. apply I2, Hw.
    - intros k0 t Hk0. apply list_lookup_insert_Some in Hk0
        as [(-> & <- & _)|(Hne & Hk0)].
      + simpl. split; [split; simpl; assumption|]. split; [assumption|].
        eexists. split; [apply list_lookup_insert_eq; exact Hlt|].
        assumption.
      + apply task_ok_insert; [|eapply I3, Hk0]. eapply Htask; eauto.
    - assumption.
    - assumption. }
  (* process_offer: the goroutine is done *)
  1,3,4: (intros k0 t Hk0;
    apply list_lookup_insert_Some in Hk0 as [(-> & <- & _)|(Hne & Hk0)];
    [right|left; eauto];
    lazymatch goal with
    | Hk : _ !! _ = Some (TOffer _ ?tr _) |- _ =>
        destruct (inv_tasks _ _ Hc _ _ Hk) as ([_ Hlen] & _ & c0 & Hc0 & Hs0);
        exists c0, (Errors tr); auto
    end).
  1:{ (* process_offer: the trace is sent *)
    intros tc c0 tr Htc Hin.
    lazymatch goal with
    | Hk : _ !! _ = Some (TOffer _ _ _), Hs : chan_send _ _ = Some _ |- _ =>
        destruct (inv_tasks _ _ Hc _ _ Hk) as (Hok & _);
        apply chan_send_Some in Hs as (_ & Hsent & _)
    end.
    apply list_lookup_insert_Some in Htc as [(<- & <- & _)|(Hne & Htc)];
      [|left; eauto].
    rewrite Hsent in Hin. apply elem_of_app in Hin as [Hin|Hin]; [left; eauto|].
    apply list_elem_of_singleton in Hin as ->. right. exact Hok. }
  1:{ (* read_sink *)
    intros ch0 c' Hc'.
    apply list_lookup_insert_Some in Hc' as [(<- & <- & _)|(Hne & Hc')];
      [|left; exists c'; auto].
    left. eexists. split; [eassumption|].
    destruct (chan_recv_props H0) as (? & ? & ?). auto. }
  (* read_trace *)
  intros tc0 c tr Htc Hin.
  apply list_lookup_insert_Some in Htc as [(<- & <- & _)|(Hne & Htc)];
    [|left; eauto].
  left. do 2 eexists. split; [eassumption|].
  destruct (chan_recv_props H0) as (_ & <- & _). exact Hin.
Qed.

(** *** All invariants hold in every reachable state *)

Lemma reachable_inv s :
  reachable s ->
  queue_inv s /\ ident_inv s /\ heap_inv s /\ chan_inv batchSize s.
Proof.
  induction 1 as [|a s s' _ (Hq & Hi & Hh & Hc) Ha].
  - split; [|split; [|split]].
    + split; reflexivity.
    + split; reflexivity.
    + split; simpl; intros w v Hin; apply elem_of_nil in Hin; contradiction.
    + split; simpl.
      * intros ch c Hl. rewrite lookup_nil in Hl. discriminate.
      * intros w Hin. apply elem_of_nil in Hin. contradiction.
      * intros k t Hl. rewrite lookup_nil in Hl. discriminate.
      * exact I.
      * intros tc c tr Hl. rewrite lookup_nil in Hl. discriminate.
  - split; [eapply queue_inv_step; eassumption|].
    split; [eapply ident_inv_step; eassumption|].
    split; [eapply heap_inv_step; eassumption|].
    eapply chan_inv_step; eassumption.
Qed.

Lemma log_mono_step a s s' e :
  exec a s = Some s' -> e ∈ log s -> e ∈ log s'.
Proof.
  intros H He. step_cases H; simpl;
    try exact He; try (apply elem_of_app; left; exact He).
Qed.

Lemma log_mono acts : forall s s' e,
  run acts s = Some s' -> e ∈ log s -> e ∈ log s'.
Proof.
  induction acts as [|a acts IH]; intros s s' e Hrun He; simpl in Hrun.
  - congruence.
  - destruct (exec a s) as [s1|] eqn:Ha; [|discriminate].
    eapply IH; [eassumption|]. eapply log_mono_step; eassumption.
Qed.

(** Every response channel is the channel of exactly one pending
    write, and holds either no send or the one send of a goroutine
    that is past line 59. *)
Lemma sink_owner s ch c :
  reachable s -> sinks s !! ch = Some c ->
  ch_sent c = []
  \/ exists errors k t,
       ch_sent c = [errors] /\ Z.of_nat (length errors) = batchSize
       /\ tasks s !! k = Some t /\ processed t /\ resp (task_write t) = ch.
Proof.
  intros Hr Hch. destruct (reachable_inv s Hr) as (Hq & Hi & _ & Hc).
  assert (Hin : ch ∈ resp <$> all_writes s).
  { rewrite all_writes_resp by assumption. apply list_elem_of_lookup.
    exists ch. apply lookup_seq. split; [reflexivity|].
    eapply lookup_lt_Some, Hch. }
  apply list_elem_of_fmap in Hin as (w & -> & Hw). unfold all_writes in Hw.
  apply elem_of_app in Hw as [Hw|Hw].
  - apply list_elem_of_fmap in Hw as (t & -> & Ht).
    apply list_elem_of_lookup in Ht as [k Hk].
    pose proof (inv_tasks _ _ Hc _ _ Hk) as Hok. destruct t; simpl in *.
    + destruct Hok as (_ & _ & c0 & Hc0 & Hs0). left. congruence.
    + destruct Hok as ([_ Hlen] & _ & c0 & Hc0 & Hs0). right.
      exists (Errors trace), k, (TOffer write trace traceChan).
      assert (c0 = c) as -> by congruence. simpl. auto.
    + destruct Hok as (c0 & errors & Hc0 & Hs0 & Hlen). right.
      exists errors, k, (TDone write).
      assert (c0 = c) as -> by congruence. simpl. auto.
  - destruct (inv_unsent _ _ Hc w Hw) as (c0 & Hc0 & Hs0). left. congruence.
Qed.

(** *** The claims on the runs *)


(** C6: in every reachable state at most one transport call is in
    flight, the calls made so far are a prefix of the completed sends
    on [c.writes], no write is sent twice, and so a write sent before
    another one is passed to the transport before it. *)
Theorem transport_calls_serial_and_fifo s :
  reachable s ->
  (in_flight (log s) = 0 \/ in_flight (log s) = 1)
  /\ (exists pending, enqueued (log s) = invoked (log s) ++ pending)
  /\ NoDup (enqueued (log s))
  /\ (forall i j j' w1 w2,
        enqueued (log s) !! i = Some w1 -> enqueued (log s) !! j = Some w2 ->
        (i < j)%nat -> invoked (log s) !! j' = Some w2 ->
        exists i', (i' < j')%nat /\ invoked (log s) !! i' = Some w1).
Proof.
  intros Hr. destruct (reachable_inv s Hr) as ([I1 I2 I3] & [J1 J2] & _ & _).
  assert (Hnd : NoDup (enqueued (log s))).
  { assert (Hn : NoDup (intaken (log s))).
    { eapply NoDup_fmap_1. rewrite J2. apply NoDup_seq. }
    rewrite J1 in Hn. apply NoDup_app in Hn as (Hn & _). exact Hn. }
  split; [|split; [|split]].
  - unfold in_flight. rewrite I2, length_app.
    destruct (disp s); simpl; [left|left|right]; lia.
  - eexists. exact I3.
  - exact Hnd.
  - intros i j j' w1 w2 Hi Hj Hlt Hj'.
    assert (Hj2 : enqueued (log s) !! j' = Some w2).
    { rewrite I3. apply lookup_app_l_Some. exact Hj'. }
    assert (j' = j) as -> by (eapply NoDup_lookup; eassumption).
    exists i. split; [exact Hlt|].
    rewrite I3 in Hi. rewrite lookup_app_l in Hi; [exact Hi|].
    apply lookup_lt_Some in Hj'. lia.
Qed.

(** In every reachable state no response channel has received more
    than one send; the channel of a write whose goroutine is past
    line 59 has received exactly one result sequence, the channel of
    any other pending write none yet; and no two pending writes share
    a channel. *)
Lemma sinks_hold_at_most_one s :
  reachable s ->
  (forall ch c, sinks s !! ch = Some c -> (length (ch_sent c) <= 1)%nat)
  /\ (forall k t, tasks s !! k = Some t -> processed t ->
        exists c errors,
          sinks s !! resp (task_write t) = Some c /\ ch_sent c = [errors])
  /\ (forall w, w ∈ all_writes s ->
        (forall k t, tasks s !! k = Some t -> processed t -> task_write t <> w) ->
        exists c, sinks s !! resp w = Some c /\ ch_sent c = [])
  /\ NoDup (resp <$> all_writes s).
Proof.
  intros Hr. destruct (reachable_inv s Hr) as (Hq & Hi & _ & Hc).
  split; [|split; [|split]].
  - intros ch c Hch.
    destruct (sink_owner s ch c Hr Hch) as [->|(e0 & k & t & -> & _)];
      simpl; lia.
  - intros k t Hk Hp. pose proof (inv_tasks _ _ Hc _ _ Hk) as Hok.
    destruct t; simpl in *; [contradiction| |].
    + destruct Hok as (_ & _ & c & Hc0 & Hs). eauto.
    + destruct Hok as (c & errors & Hc0 & Hs & _). eauto.
  - intros w Hw Hnp. unfold all_writes in Hw.
    apply elem_of_app in Hw as [Hw|Hw]; [|exact (inv_unsent _ _ Hc w Hw)].
    apply list_elem_of_fmap in Hw as (t & -> & Ht).
    apply list_elem_of_lookup in Ht as [k Hk].
    pose proof (inv_tasks _ _ Hc _ _ Hk) as Hok.
    destruct t; simpl in *;
      [destruct Hok as (_ & _ & Hu); exact Hu
      |exfalso; eapply (Hnp k); [exact Hk|exact I|reflexivity]..].
  - apply all_writes_NoDup; assumption.
Qed.

(** C8: for a goroutine at the offer of lines 61-72 the step is always
    enabled and touches nothing of the write path.  With a nil
    channel nothing happens; with a channel that has a parked reader
    or a free buffer slot the trace is sent; else the trace is
    dropped and the notice is printed. *)
Theorem offer_never_blocks s k w trace tc :
  reachable s -> tasks s !! k = Some (TOffer w trace tc) ->
  exists s',
    exec (ProcessOffer k) s = Some s'
    /\ tasks s' = <[k := TDone w]> (tasks s)
    /\ sinks s' = sinks s /\ writes s' = writes s /\ senders s' = senders s
    /\ disp s' = disp s /\ mem s' = mem s
    /\ match tc with
       | None => traces s' = traces s /\ stdout s' = stdout s
       | Some id =>
           exists c, traces s !! id = Some c
             /\ if decide ((0 < ch_recvq c)%nat \/ (length (ch_buf c) < ch_cap c)%nat)
                then exists c', traces s' = <[id := c']> (traces s)
                       /\ ch_sent c' = ch_sent c ++ [trace]
                       /\ stdout s' = stdout s
                else traces s' = traces s
                     /\ stdout s'
                        = stdout s ++ ["Write trace channel full. Discarding trace"%string]
       end.
Proof.
  intros Hr Hk. destruct (reachable_inv s Hr) as (_ & _ & _ & Hc).
  destruct (inv_tasks _ _ Hc _ _ Hk) as (_ & Htc & _).
  simpl. unfold process_offer. rewrite Hk. simpl. unfold offer.
  destruct tc as [id|]; simpl in *.
  - apply lookup_lt_is_Some_2 in Htc as [c Hid]. rewrite Hid. simpl.
    unfold chan_send.
    destruct (decide (0 < ch_recvq c)%nat) as [Hq|Hq].
    + eexists. split; [reflexivity|]. simpl. repeat (split; [reflexivity|]).
      exists c. split; [reflexivity|].
      rewrite decide_True by (left; exact Hq). eauto.
    + destruct (decide (length (ch_buf c) < ch_cap c)%nat) as [Hb|Hb].
      * eexists. split; [reflexivity|]. simpl. repeat (split; [reflexivity|]).
        exists c. split; [reflexivity|].
        rewrite decide_True by (right; exact Hb). eauto.
      * eexists. split; [reflexivity|]. simpl. repeat (split; [reflexivity|]).
        exists c. split; [reflexivity|].
        rewrite decide_False by tauto. auto.
  - eexists. split; [reflexivity|]. simpl. repeat (split; [reflexivity|]).
    reflexivity.
Qed.

(** C9: [Write] keeps a copy of the request: the write it queues
    points to an object other than the caller's, with the value the
    argument has at the call; after any further steps, mutations of
    the caller's object among them, the queued request still has that
    value, and a transport call for this write carries it. *)
Theorem Write_keeps_private_copy s r s1 acts s2 :
  reachable s ->
  Write_begin batchSize r s = Some s1 ->
  run acts s1 = Some s2 ->
  exists w,
    senders s1 = senders s ++ [w]
    /\ deref (mem s1) (req w) = deref (mem s) r
    /\ (forall a, r = Some a -> req w <> Some a)
    /\ deref (mem s2) (req w) = deref (mem s) r
    /\ (forall payload, EvInvoke w payload ∈ log s2 -> payload = deref (mem s) r).
Proof.
  intros Hr Hw Hrun.
  assert (Hr1 : reachable s1)
    by (eapply (reachable_step _ _ _ (WriteBegin r)); [exact Hr|exact Hw]).
  assert (Hr2 : reachable s2) by (eapply run_reachable; eassumption).
  destruct (reachable_inv s1 Hr1) as (_ & _ & Hh1 & _).
  destruct (reachable_inv s2 Hr2) as (_ & _ & Hh2 & _).
  unfold Write_begin in Hw.
  destruct (make_chan batchSize) as [res|]; [|discriminate]. simpl in Hw.
  destruct (Clone (mem s) r) as [[h q]|] eqn:Hcl; [|discriminate].
  simpl in Hw. injection Hw as <-.
  set (w := mkP4Write q (length (sinks s))).
  assert (Hin1 : EvIntake w (deref (mem s) r) ∈ log
            (record (EvIntake w (deref (mem s) r))
               (set_senders (senders s ++ [w])
                  (set_sinks (sinks s ++ [res]) (set_mem h s))))).
  { simpl. apply elem_of_app. right. apply list_elem_of_here. }
  exists w. split; [reflexivity|]. split; [|split; [|split]].
  - apply (inv_intake_value _ Hh1 _ _ Hin1).
  - intros a -> Heq. simpl in *.
    destruct (mem s !! a) as [c|] eqn:Ha; [|discriminate].
    apply lookup_lt_Some in Ha. simplify_eq. lia.
  - apply (inv_intake_value _ Hh2). eapply log_mono; eassumption.
  - intros payload Hp. apply (inv_invoke_value _ Hh2) in Hp.
    destruct (inv_intake_value _ Hh2 _ _ Hp) as [<- _].
    apply (inv_intake_value _ Hh2). eapply log_mono; eassumption.
Qed.

End Runs.

(** C10, amended: when [c.batchSize] is at least 1, a goroutine standing
    before the send of line 59 can always take the step, whether or not
    a reader waits on the channel. *)
Theorem sink_write_never_waits_positive (batchSize : Z) :
  1 <= batchSize -> sink_write_never_waits batchSize.
Proof.
  intros Hpos U writesCap s k w err bs start tc now Hr Hk.
  destruct (reachable_inv U batchSize writesCap s Hr) as (_ & _ & _ & Hc).
  destruct (inv_tasks _ _ Hc _ _ Hk) as (-> & _ & c & Hch & Hs).
  destruct (inv_sink _ _ Hc _ _ Hch) as [Hcap Hbuf].
  rewrite Hs in Hbuf. simpl in Hbuf.
  destruct (parse_total U err batchSize) as (errors & Hp & _); [lia|].
  simpl. unfold process_send. rewrite Hk. simpl. rewrite Hp. simpl.
  rewrite Hch. simpl. unfold chan_send.
  destruct (decide (0 < ch_recvq c)%nat); [eexists; reflexivity|].
  rewrite decide_True by lia. eexists. reflexivity.
Qed.

(** ** The statements at concrete inputs *)

(** The scenario of three details with the last one malformed. *)
Example parse_status3 :
  parseP4RuntimeWriteError Sample.unmarshal (Some (StatusError Sample.status3)) 3
  = Some [ Some (mkError 5 "" "" 0 None); Some (mkError 9 "" "" 0 None);
           Some (mkError codes.Internal
                   "proto: cannot parse invalid wire-format data" "p4rt-go" 0 None) ].
Proof. reflexivity. Qed.

Lemma parse_returns_batchSize_results_witness :
  0 <= 3
  /\ exists errors,
       parseP4RuntimeWriteError Sample.unmarshal (Some (PlainError "EOF")) 3
       = Some errors
       /\ Z.of_nat (length errors) = 3
       /\ Forall is_Some errors.
Proof.
  split; [lia|].
  apply (parse_returns_batchSize_results Sample.unmarshal (Some (PlainError "EOF")) 3).
  lia.
Defined.

Lemma parse_success_all_OK_witness :
  0 <= 2
  /\ exists errors,
       parseP4RuntimeWriteError Sample.unmarshal None 2 = Some errors
       /\ Z.of_nat (length errors) = 2
       /\ forall i p, errors !! i = Some p ->
            exists e, p = Some e /\ CanonicalCode e = codes.OK /\ Message e = ""%string.
Proof.
  split; [lia|]. apply (parse_success_all_OK Sample.unmarshal 2). lia.
Defined.

Lemma parse_details_positionwise_witness :
  GetCode Sample.status3 = codes.Unknown
  /\ Z.of_nat (length (GetDetails Sample.status3)) = 3
  /\ exists errors,
       parseP4RuntimeWriteError Sample.unmarshal (Some (StatusError Sample.status3)) 3
       = Some errors
       /\ errors !! 0%nat = Some (Some (mkError 5 "" "" 0 None))
       /\ errors !! 2%nat
          = Some (Some (mkError codes.Internal
                          "proto: cannot parse invalid wire-format data"
                          "p4rt-go" 0 None)).
Proof.
  split; [reflexivity|]. split; [reflexivity|].
  destruct (parse_details_positionwise Sample.unmarshal Sample.status3 3
              eq_refl eq_refl) as (errors & Hp & _ & Hok & Hbad & _).
  exists errors. split; [exact Hp|]. split.
  - apply (Hok 0%nat (Sample.good 5)); reflexivity.
  - apply (Hbad 2%nat Sample.bad); reflexivity.
Defined.

Lemma sample_reachable batchSize acts :
  is_Some (run Sample.unmarshal batchSize 1 acts init) ->
  reachable Sample.unmarshal batchSize 1 (Sample.state_after batchSize acts).
Proof.
  intros [s Hs]. unfold Sample.state_after. rewrite Hs. simpl.
  eapply run_reachable; [apply reachable_init|exact Hs].
Qed.


Lemma transport_calls_serial_and_fifo_witness :
  let s := Sample.state_after 2 Sample2.second_call in
  reachable Sample.unmarshal 2 1 s
  /\ enqueued (log s) = [Sample.write0; Sample2.write1]
  /\ invoked (log s) = [Sample.write0; Sample2.write1]
  /\ returned (log s) = [Sample.write0]
  /\ in_flight (log s) = 1
  /\ NoDup (enqueued (log s))
  /\ (exists i', (i' < 1)%nat /\ invoked (log s) !! i' = Some Sample.write0)
  /\ (forall i j j' w1 w2,
        enqueued (log s) !! i = Some w1 -> enqueued (log s) !! j = Some w2 ->
        (i < j)%nat -> invoked (log s) !! j' = Some w2 ->
        exists i', (i' < j')%nat /\ invoked (log s) !! i' = Some w1).
Proof.
  assert (Hr : reachable Sample.unmarshal 2 1
                 (Sample.state_after 2 Sample2.second_call))
    by (apply sample_reachable; vm_compute; eexists; reflexivity).
  assert (He : enqueued (log (Sample.state_after 2 Sample2.second_call))
               = [Sample.write0; Sample2.write1]) by (vm_compute; reflexivity).
  assert (Hi : invoked (log (Sample.state_after 2 Sample2.second_call))
               = [Sample.write0; Sample2.write1]) by (vm_compute; reflexivity).
  assert (Hret : returned (log (Sample.state_after 2 Sample2.second_call))
                 = [Sample.write0]) by (vm_compute; reflexivity).
  destruct (transport_calls_serial_and_fifo Sample.unmarshal 2 1 _ Hr)
    as (Hfl & _ & Hnd & Hfifo).
  split; [exact Hr|]. split; [exact He|]. split; [exact Hi|].
  split; [exact Hret|].
  split; [unfold in_flight; rewrite Hi, Hret; reflexivity|].
  split; [exact Hnd|]. split; [|exact Hfifo].
  apply (Hfifo 0%nat 1%nat 1%nat Sample.write0 Sample2.write1).
  - rewrite He. reflexivity.
  - rewrite He. reflexivity.
  - lia.
  - rewrite Hi. reflexivity.
Defined.

Lemma offer_never_blocks_witness :
  let s := Sample.state_after 2 Sample.after_send in
  reachable Sample.unmarshal 2 1 s
  /\ tasks s !! 0%nat = Some (TOffer Sample.write0 Sample.trace0 (Some 0%nat))
  /\ exists s' c',
       exec Sample.unmarshal 2 1 (ProcessOffer 0) s = Some s'
       /\ tasks s' = <[0%nat := TDone Sample.write0]> (tasks s)
       /\ sinks s' = sinks s
       /\ traces s' = <[0%nat := c']> (traces s)
       /\ ch_sent c' = [Sample.trace0]
       /\ stdout s' = stdout s.
Proof.
  assert (Hr : reachable Sample.unmarshal 2 1
                 (Sample.state_after 2 Sample.after_send))
    by (apply sample_reachable; vm_compute; eexists; reflexivity).
  assert (Hk : tasks (Sample.state_after 2 Sample.after_send) !! 0%nat
               = Some (TOffer Sample.write0 Sample.trace0 (Some 0%nat)))
    by (vm_compute; reflexivity).
  split; [exact Hr|]. split; [exact Hk|].
  destruct (offer_never_blocks Sample.unmarshal 2 1 _ 0%nat Sample.write0
              Sample.trace0 (Some 0%nat) Hr Hk)
    as (s' & He & Ht & Hs & _ & _ & _ & _ & c & Hc & Hcase).
  vm_compute in Hc. injection Hc as <-. simpl in Hcase.
  destruct Hcase as (c' & Htr & Hsent & Hout).
  exists s', c'. split; [exact He|]. split; [exact Ht|]. split; [exact Hs|].
  split; [exact Htr|]. split; [exact Hsent|exact Hout].
Defined.

Lemma Write_keeps_private_copy_witness :
  let s := Sample.state_after 2 Sample.setup in
  let s1 := Sample.state_after 2 (Sample.setup ++ [WriteBegin (Some 0%nat)]) in
  let s2 := Sample.state_after 2 Sample.after_send in
  reachable Sample.unmarshal 2 1 s
  /\ Write_begin 2 (Some 0%nat) s = Some s1
  /\ run Sample.unmarshal 2 1 (Sample.dispatch ++ [ProcessSend 0 250]) s1 = Some s2
  /\ deref (mem s2) (Some 0%nat) = Some (Sample.request 1)
  /\ exists w,
       senders s1 = senders s ++ [w]
       /\ deref (mem s1) (req w) = Some (Sample.request 3)
       /\ req w <> Some 0%nat
       /\ deref (mem s2) (req w) = Some (Sample.request 3)
       /\ (forall payload, EvInvoke w payload ∈ log s2 ->
             payload = Some (Sample.request 3)).
Proof.
  assert (Hr : reachable Sample.unmarshal 2 1 (Sample.state_after 2 Sample.setup))
    by (apply sample_reachable; vm_compute; eexists; reflexivity).
  assert (Hw : Write_begin 2 (Some 0%nat) (Sample.state_after 2 Sample.setup)
               = Some (Sample.state_after 2 (Sample.setup ++ [WriteBegin (Some 0%nat)])))
    by (vm_compute; reflexivity).
  assert (Hrun : run Sample.unmarshal 2 1 (Sample.dispatch ++ [ProcessSend 0 250])
                   (Sample.state_after 2 (Sample.setup ++ [WriteBegin (Some 0%nat)]))
                 = Some (Sample.state_after 2 Sample.after_send))
    by (vm_compute; reflexivity).
  split; [exact Hr|]. split; [exact Hw|]. split; [exact Hrun|].
  split; [vm_compute; reflexivity|].
  destruct (Write_keeps_private_copy Sample.unmarshal 2 1 _ (Some 0%nat) _
              (Sample.dispatch ++ [ProcessSend 0 250]) _ Hr Hw Hrun)
    as (w & Hs & H1 & Hne & H2 & Hp).
  exists w. split; [exact Hs|]. split; [exact H1|].
  split; [exact (Hne 0%nat eq_refl)|]. split; [exact H2|exact Hp].
Defined.

Lemma sink_write_never_waits_positive_witness :
  1 <= 2
  /\ tasks (Sample.state_after 2 Sample.before_send) !! 0%nat
     = Some (TRun Sample.write0 (Some (PlainError "EOF")) 2 100 (Some 0%nat))
  /\ is_Some (exec Sample.unmarshal 2 1 (ProcessSend 0 250)
                (Sample.state_after 2 Sample.before_send)).
Proof.
  assert (Hk : tasks (Sample.state_after 2 Sample.before_send) !! 0%nat
               = Some (TRun Sample.write0 (Some (PlainError "EOF")) 2 100 (Some 0%nat)))
    by (vm_compute; reflexivity).
  split; [lia|]. split; [exact Hk|].
  apply (sink_write_never_waits_positive 2 ltac:(lia) Sample.unmarshal 1%nat
           (Sample.state_after 2 Sample.before_send) 0%nat Sample.write0
           (Some (PlainError "EOF")) 2 100 (Some 0%nat) 250).
  - apply sample_reachable. vm_compute. eexists. reflexivity.
  - exact Hk.
Defined.

(** C10 as stated fails for [c.batchSize = 0]: the response channel is
    made with capacity 0, and the goroutine at line 59 cannot send
    while no reader waits. *)
Lemma sink_write_waits_when_batchSize_zero : ~ sink_write_never_waits 0.
Proof.
  intros H.
  destruct (H Sample.unmarshal 1%nat (Sample.state_after 0 Sample.before_send)
              0%nat Sample.write0 (Some (PlainError "EOF")) 0 100 (Some 0%nat) 250)
    as [s' Hs'].
  - apply sample_reachable. vm_compute. eexists. reflexivity.
  - vm_compute. reflexivity.
  - vm_compute in Hs'. discriminate Hs'.
Qed.

(** With batch size 0 the send of line 59 goes through once the caller
    of [Write] is parked on the channel. *)
Example unbuffered_sink_waits_for_reader :
  let s := Sample.state_after 0 Sample.before_send in
  (sinks s !! 0%nat = Some (mkChan 0 [] 0 []))
  /\ exec Sample.unmarshal 0 1 (ProcessSend 0 250) s = None
  /\ is_Some (run Sample.unmarshal 0 1 [ReadSink 0; ProcessSend 0 250] s).
Proof.
  split; [vm_compute; reflexivity|]. split; [vm_compute; reflexivity|].
  vm_compute. eexists. reflexivity.
Qed.

(** ** Further properties of the decoding *)

Section ParseMore.

Variable UnmarshalAny : Any -> Error + string.

Local Abbreviation parse := (parseP4RuntimeWriteError UnmarshalAny).

(** X2: for a failure that does not pass the guard of line 81 (code not
    Unknown, or a number of details other than the batch size, or batch
    size 0), every
    entry is the same stand-in error: the message of the failure, an
    empty space, no details, and canonical code 0, the zero value of
    [code] that line 98 leaves as it is. *)
Theorem parse_uniform_failure_shape (e : error) (N : Z) :
  0 <= N ->
  GetCode (Convert e) <> codes.Unknown
  \/ Z.of_nat (length (GetDetails (Convert e))) <> N
  \/ N = 0 ->
  parse (Some e) N
  = Some (replicate (Z.to_nat N)
            (Some (mkError 0 (GetMessage (Convert e)) "" 0 None))).
Proof.
  intros HN Hns. apply parse_uniform; [assumption|].
  intros (Hc & Hpos & Hl). destruct Hns as [H|[H|H]]; [auto|auto|lia].
Qed.

(** X3: for batch size 0 the result is the empty slice for every
    outcome and every decoder: the guard [batchSize > 0] of line 81
    keeps an Unknown failure without details out of the decoding loop. *)
Theorem parse_empty_batch (err : option error) : parse err 0 = Some [].
Proof.
  destruct err as [e|].
  - rewrite parse_uniform; [reflexivity|lia|]. intros (_ & Hpos & _). lia.
  - rewrite parse_nil_error by lia. reflexivity.
Qed.

End ParseMore.

(** ** Further properties of the runs *)

Lemma delivered_snoc l e :
  delivered (l ++ [e])
  = delivered l ++ match e with EvDeliver w _ => [w] | _ => [] end.
Proof. unfold delivered. rewrite omap_app. destruct e; reflexivity. Qed.

Lemma discarded_snoc l e :
  discarded (l ++ [e])
  = discarded l ++ match e with EvDiscard tr => [tr] | _ => [] end.
Proof. unfold discarded. rewrite omap_app. destruct e; reflexivity. Qed.

Section RunsMore.

Variable UnmarshalAny : Any -> Error + string.
Variable batchSize : Z.
Variable writesCap : nat.

Local Abbreviation exec := (exec UnmarshalAny batchSize writesCap).
Local Abbreviation run := (run UnmarshalAny batchSize writesCap).
Local Abbreviation reachable := (reachable UnmarshalAny batchSize writesCap).

Lemma telemetry_inv_frame s s' :
  (forall e, e ∈ log s -> e ∈ log s') ->
  (forall k w tr tc, tasks s' !! k = Some (TOffer w tr tc) ->
     (exists k', tasks s !! k' = Some (TOffer w tr tc))
     \/ EvDeliver w (Errors tr) ∈ log s') ->
  (forall tr, EvTrace tr ∈ log s' \/ EvDiscard tr ∈ log s' ->
     (EvTrace tr ∈ log s \/ EvDiscard tr ∈ log s)
     \/ (trace_ok batchSize tr /\ exists w, EvDeliver w (Errors tr) ∈ log s')) ->
  (forall w errors, EvDeliver w errors ∈ log s' ->
     EvDeliver w errors ∈ log s
     \/ exists k t, tasks s' !! k = Some t /\ processed t /\ task_write t = w) ->
  (forall k t, tasks s !! k = Some t -> processed t ->
     exists k' t', tasks s' !! k' = Some t' /\ processed t'
                   /\ task_write t' = task_write t) ->
  stdout s' = replicate (length (discarded (log s'))) notice ->
  (sinks s = [] -> batchSize < 0 -> sinks s' = []) ->
  telemetry_inv batchSize s -> telemetry_inv batchSize s'.
Proof.
  intros Hmono Hoff Htr Hdel Htasks Hout Hneg [I1 I2 I3 I4 I5]. split.
  - intros k w tr tc Hk. destruct (Hoff _ _ _ _ Hk) as [[k' Hold]|Hnew];
      [|exact Hnew].
    apply Hmono. eapply I1, Hold.
  - intros tr Hin. destruct (Htr _ Hin) as [Hold|Hnew]; [|exact Hnew].
    destruct (I2 _ Hold) as (Hok & w & Hw). split; [exact Hok|].
    exists w. apply Hmono, Hw.
  - intros w errors Hin. destruct (Hdel _ _ Hin) as [Hold|Hnew]; [|exact Hnew].
    destruct (I3 _ _ Hold) as (k & t & Hk & Hp & <-). apply (Htasks k t Hk Hp).
  - exact Hout.
  - intros Hn. apply Hneg; [apply I5, Hn|exact Hn].
Qed.

Lemma processed_insert (l : list task) k t0 tnew :
  l !! k = Some t0 ->
  (processed t0 -> processed tnew /\ task_write tnew = task_write t0) ->
  forall k0 t, l !! k0 = Some t -> processed t ->
    exists k' t', <[k := tnew]> l !! k' = Some t' /\ processed t'
                  /\ task_write t' = task_write t.
Proof.
  intros Hk Hnew k0 t Hk0 Hp. destruct (decide (k0 = k)) as [->|Hne].
  - assert (t = t0) as -> by congruence. destruct (Hnew Hp) as [Hp' Hw].
    exists k, tnew. split; [|auto].
    apply list_lookup_insert_eq. eapply lookup_lt_Some, Hk.
  - exists k0, t. split; [|auto]. rewrite list_lookup_insert_ne; auto.
Qed.

Lemma telemetry_inv_step a s s' :
  exec a s = Some s' -> chan_inv batchSize s ->
  telemetry_inv batchSize s -> telemetry_inv batchSize s'.
Proof.
  intros H Hc Ht. pose proof (inv_stdout _ _ Ht) as Hout. step_cases H.
  all: eapply telemetry_inv_frame; [| | | | | | |exact Ht]; simpl in *.
  all: try (intros e He; first [exact He | apply elem_of_app; left; exact He]).
  all: try (intros k' w' tr' tc' Hk'; left; eauto; fail).
  all: try (intros tr' [Hin|Hin];
            first [ left; left; exact Hin | left; right; exact Hin
                  | apply elem_of_app in Hin as [Hin|Hin];
                    [left; auto | apply list_elem_of_singleton in Hin; discriminate Hin] ]).
  all: try (intros w' errors' Hin;
            first [ left; exact Hin
                  | apply elem_of_app in Hin as [Hin|Hin];
                    [left; exact Hin | apply list_elem_of_singleton in Hin; discriminate Hin] ]).
  all: try (intros k' t' Hk' Hp'; exists k', t'; auto; fail).
  all: try (rewrite ?discarded_snoc, ?length_app; simpl;
            rewrite ?Nat.add_0_r, ?replicate_add; reflexivity).
  all: try (intros Hs Hn; first [exact Hs | rewrite Hs; reflexivity]).
  all: try (eapply processed_insert; [eassumption|]; simpl; intros Hp;
            first [contradiction | split; [exact I|reflexivity]]).
  all: try (intros k0 w' tr' tc' Hk0;
            apply list_lookup_insert_Some in Hk0 as [(_ & Heq & _)|(_ & Hk0)];
            [discriminate Heq|left; eauto]).
  1:{ (* Write_begin *) intros _ Hn. contradiction. }
  1:{ (* Listen_go *)
    intros k0 w' tr' tc' Hk0. apply lookup_app_Some in Hk0 as [Hk0|[_ Hk0]];
      [left; eauto|].
    apply list_lookup_singleton_Some in Hk0 as [_ Heq]. discriminate Heq. }
  1:{ intros k0 t Hk0 Hp. exists k0, t. split; [|auto].
    apply lookup_app_l_Some. exact Hk0. }
  1:{ (* process_send *)
    intros k0 w' tr' tc' Hk0.
    apply list_lookup_insert_Some in Hk0 as [(_ & Heq & _)|(_ & Hk0)];
      [|left; eauto].
    injection Heq as <- <- <-. right. simpl.
    apply elem_of_app. right. apply list_elem_of_here. }
  1:{ intros w' errors' Hin. apply elem_of_app in Hin as [Hin|Hin]; [left; exact Hin|].
    apply list_elem_of_singleton in Hin. injection Hin as -> ->. right.
    do 2 eexists.
    split; [apply list_lookup_insert_eq; eapply lookup_lt_Some; eassumption|].
    split; [exact I|reflexivity]. }
  (* process_offer: the trace is sent, or dropped *)
  all: intros tr' [Hin|Hin];
    apply elem_of_app in Hin as [Hin|Hin]; try (left; auto; fail);
    apply list_elem_of_singleton in Hin; try discriminate Hin;
    injection Hin as ->; right;
    lazymatch goal with
    | Hk : _ !! _ = Some (TOffer ?w _ _) |- _ =>
        destruct (inv_tasks _ _ Hc _ _ Hk) as (Hok & _);
        split; [exact Hok|]; exists w;
        apply elem_of_app; left; exact (inv_offer_log _ _ Ht _ _ _ _ Hk)
    end.
Qed.

Lemma reachable_telemetry s : reachable s -> telemetry_inv batchSize s.
Proof.
  induction 1 as [|a s s' Hr IH Ha].
  - split; simpl.
    + intros k w tr tc Hl. rewrite lookup_nil in Hl. discriminate.
    + intros tr [Hin|Hin]; apply elem_of_nil in Hin; contradiction.
    + intros w errors Hin. apply elem_of_nil in Hin. contradiction.
    + reflexivity.
    + reflexivity.
  - destruct (reachable_inv _ _ _ s Hr) as (_ & _ & _ & Hc).
    eapply telemetry_inv_step; eassumption.
Qed.




(** X5: what [RemainingWrites] tells about the queue.  When it is true,
    some write whose send on [c.writes] completed has not been passed
    to the transport yet.  When it is false, at most one such write is
    left (the one the dispatcher has just received), and if moreover
    the dispatcher is at its receive, every write sent on [c.writes]
    has been passed to the transport and its call has returned. *)
Theorem RemainingWrites_meaning s :
  reachable s ->
  (RemainingWrites s = true ->
     (length (invoked (log s)) < length (enqueued (log s)))%nat)
  /\ (RemainingWrites s = false ->
        (length (enqueued (log s)) <= S (length (invoked (log s))))%nat
        /\ (disp s = DRecv -> enqueued (log s) = returned (log s))).
Proof.
  intros Hr. destruct (reachable_inv _ _ _ s Hr) as ([I1 I2 I3] & _).
  unfold RemainingWrites. split.
  - intros Ht. apply bool_decide_eq_true_1 in Ht.
    rewrite I3, !length_app. lia.
  - intros Hf. apply bool_decide_eq_false_1 in Hf.
    assert (Hw : writes s = []) by (destruct (writes s); simpl in Hf; [reflexivity|lia]).
    rewrite Hw, app_nil_r in I3. split.
    + rewrite I3, length_app. destruct (disp s); simpl; lia.
    + intros Hd. rewrite Hd in I2, I3. simpl in I2, I3.
      rewrite app_nil_r in I2, I3. congruence.
Qed.

(** X6: no write is lost or duplicated between [Write] and the end of
    its goroutine: the writes taken in by [Write] are, up to order,
    exactly the writes held by the goroutines of line 51, by the
    dispatcher, by the buffer of [c.writes] and by the callers waiting
    at the send of line 32. *)
Theorem writes_conserved s :
  reachable s -> intaken (log s) ≡ₚ all_writes s.
Proof.
  intros Hr. destruct (reachable_inv _ _ _ s Hr) as (Hq & [I1 _] & _).
  rewrite all_writes_enqueued by exact Hq. exact I1.
Qed.

(** X7: the transport is called at most once per write, only for
    writes that [Write] took in, and the calls that have returned are
    all of the calls made but possibly the last one. *)
Theorem transport_invoked_once_per_write s :
  reachable s ->
  NoDup (invoked (log s))
  /\ (forall w, w ∈ invoked (log s) -> w ∈ intaken (log s))
  /\ exists last, invoked (log s) = returned (log s) ++ last
                  /\ (length last <= 1)%nat.
Proof.
  intros Hr. destruct (reachable_inv _ _ _ s Hr) as ([I1 I2 I3] & [J1 J2] & _).
  assert (Hn : NoDup (intaken (log s))).
  { eapply NoDup_fmap_1. rewrite J2. apply NoDup_seq. }
  split; [|split].
  - rewrite J1, I3 in Hn. apply NoDup_app in Hn as (Hn & _).
    apply NoDup_app in Hn as (Hn & _). exact Hn.
  - intros w Hw. rewrite J1, I3. apply elem_of_app. left.
    apply elem_of_app. left. exact Hw.
  - exists (disp_call (disp s)). split; [exact I2|].
    destruct (disp s); simpl; lia.
Qed.

(** X8: a result sequence is sent on the response channel of a write
    only after the transport call of that write has returned. *)
Theorem delivery_follows_return s w errors :
  reachable s -> EvDeliver w errors ∈ log s ->
  w ∈ returned (log s) /\ w ∈ invoked (log s).
Proof.
  intros Hr Hin. destruct (reachable_inv _ _ _ s Hr) as ([I1 I2 I3] & _).
  destruct (inv_deliver_log _ _ (reachable_telemetry s Hr) _ _ Hin)
    as (k & t & Hk & _ & <-).
  assert (Hret : task_write t ∈ returned (log s)).
  { rewrite I1. apply list_elem_of_fmap_2. eapply list_elem_of_lookup_2, Hk. }
  split; [exact Hret|]. rewrite I2. apply elem_of_app. left. exact Hret.
Qed.

(** X9: a trace is offered (sent or dropped) only after the result
    sequence it carries was sent on the response channel of some
    write, and it carries the client's batch size and that many
    errors. *)
Theorem trace_follows_delivery s tr :
  reachable s ->
  EvTrace tr ∈ log s \/ EvDiscard tr ∈ log s ->
  BatchSize tr = batchSize
  /\ Z.of_nat (length (Errors tr)) = batchSize
  /\ exists w, EvDeliver w (Errors tr) ∈ log s.
Proof.
  intros Hr Hin.
  destruct (inv_trace_log _ _ (reachable_telemetry s Hr) _ Hin)
    as ([Hb Hl] & w & Hw).
  eauto.
Qed.

(** X10: the only thing the client ever prints is the notice of line
    70, once for each dropped trace. *)
Theorem stdout_only_notices s :
  reachable s -> stdout s = replicate (length (discarded (log s))) notice.
Proof. intros Hr. exact (inv_stdout _ _ (reachable_telemetry s Hr)). Qed.

(** X11: with a negative batch size every call of [Write] panics at the
    [make] of line 31, so no write is ever taken in, no goroutine is
    started and the transport is never called. *)
Theorem negative_batchSize_nothing_queued s :
  batchSize < 0 -> reachable s ->
  (forall r, Write_begin batchSize r s = None)
  /\ intaken (log s) = [] /\ invoked (log s) = [] /\ tasks s = [].
Proof.
  intros Hn Hr.
  destruct (reachable_inv _ _ _ s Hr) as ([I1 I2 I3] & [J1 J2] & _).
  pose proof (inv_negative _ _ (reachable_telemetry s Hr) Hn) as Hs.
  rewrite Hs in J2. simpl in J2. apply fmap_nil_inv in J2.
  rewrite J2 in J1. symmetry in J1. apply Permutation_nil_r in J1.
  apply app_eq_nil in J1 as [Henq _]. rewrite Henq in I3. symmetry in I3.
  apply app_eq_nil in I3 as [Hinv _]. rewrite Hinv in I2. symmetry in I2.
  apply app_eq_nil in I2 as [Hret _]. rewrite Hret in I1. symmetry in I1.
  apply fmap_nil_inv in I1.
  split; [|auto]. intros r. unfold Write_begin, make_chan.
  rewrite decide_True by exact Hn. reflexivity.
Qed.

(** X12: the client never writes to a request object that exists: a
    step leaves every object of the heap as it is, except the caller's
    own overwrite of an object that [Clone] did not make.  [Write]
    only reads its argument. *)
Theorem requests_changed_only_by_caller a s s' p c :
  exec a s = Some s' -> mem s !! p = Some c ->
  mem s' !! p = Some c
  \/ exists v, a = Mutate p v /\ cloned c = false
               /\ mem s' !! p = Some (mkCell false v).
Proof.
  intros H Hp. step_cases H; simpl in *; try (left; exact Hp).
  - left. apply lookup_app_l_Some. exact Hp.
  - destruct (decide (a = p)) as [->|Hne].
    + right. eexists. split; [reflexivity|].
      assert (c = H0) as -> by congruence.
      split; [destruct (cloned H0); [discriminate|reflexivity]|].
      apply list_lookup_insert_eq. eapply lookup_lt_Some, Hp.
    + left. rewrite list_lookup_insert_ne; auto.
  - left. unfold Clone in *. destruct r as [a|]; simpl in *.
    + destruct (mem0 !! a) eqn:Ha; simplify_eq. simpl.
      apply lookup_app_l_Some. exact Hp.
    + simplify_eq. exact Hp.
Qed.

End RunsMore.

(** ** The further statements at concrete inputs *)

Lemma parse_uniform_failure_shape_witness :
  0 <= 5
  /\ parseP4RuntimeWriteError Sample.unmarshal
       (Some (StatusError (mkStatus codes.Unknown "bad batch" [Sample.good 3]))) 5
     = Some (replicate 5 (Some (mkError 0 "bad batch" "" 0 None))).
Proof.
  split; [lia|].
  apply (parse_uniform_failure_shape Sample.unmarshal
           (StatusError (mkStatus codes.Unknown "bad batch" [Sample.good 3])) 5).
  - lia.
  - right. left. simpl. lia.
Defined.



Lemma RemainingWrites_meaning_witness :
  let s := Sample.state_after 2 Sample2.two_writes in
  reachable Sample.unmarshal 2 1 s
  /\ RemainingWrites s = true
  /\ (length (invoked (log s)) < length (enqueued (log s)))%nat.
Proof.
  assert (Hr : reachable Sample.unmarshal 2 1 (Sample.state_after 2 Sample2.two_writes))
    by (apply sample_reachable; vm_compute; eexists; reflexivity).
  assert (Ht : RemainingWrites (Sample.state_after 2 Sample2.two_writes) = true)
    by (vm_compute; reflexivity).
  split; [exact Hr|]. split; [exact Ht|].
  exact (proj1 (RemainingWrites_meaning Sample.unmarshal 2 1 _ Hr) Ht).
Defined.

Lemma writes_conserved_witness :
  let s := Sample.state_after 2 Sample2.two_writes in
  reachable Sample.unmarshal 2 1 s /\ intaken (log s) ≡ₚ all_writes s.
Proof.
  assert (Hr : reachable Sample.unmarshal 2 1 (Sample.state_after 2 Sample2.two_writes))
    by (apply sample_reachable; vm_compute; eexists; reflexivity).
  split; [exact Hr|]. exact (writes_conserved Sample.unmarshal 2 1 _ Hr).
Defined.

Lemma transport_invoked_once_per_write_witness :
  let s := Sample.state_after 2 Sample2.full_trace in
  reachable Sample.unmarshal 2 1 s
  /\ NoDup (invoked (log s))
  /\ (forall w, w ∈ invoked (log s) -> w ∈ intaken (log s))
  /\ exists last, invoked (log s) = returned (log s) ++ last
                  /\ (length last <= 1)%nat.
Proof.
  assert (Hr : reachable Sample.unmarshal 2 1 (Sample.state_after 2 Sample2.full_trace))
    by (apply sample_reachable; vm_compute; eexists; reflexivity).
  split; [exact Hr|].
  exact (transport_invoked_once_per_write Sample.unmarshal 2 1 _ Hr).
Defined.

Lemma delivery_follows_return_witness :
  let s := Sample.state_after 2 Sample.after_send in
  let errors := replicate 2 (Some (mkError 0 "EOF" "" 0 None)) in
  reachable Sample.unmarshal 2 1 s
  /\ EvDeliver Sample.write0 errors ∈ log s
  /\ Sample.write0 ∈ returned (log s) /\ Sample.write0 ∈ invoked (log s).
Proof.
  assert (Hr : reachable Sample.unmarshal 2 1 (Sample.state_after 2 Sample.after_send))
    by (apply sample_reachable; vm_compute; eexists; reflexivity).
  assert (Hin : EvDeliver Sample.write0 (replicate 2 (Some (mkError 0 "EOF" "" 0 None)))
                ∈ log (Sample.state_after 2 Sample.after_send)).
  { apply list_elem_of_lookup. exists 4%nat. vm_compute. reflexivity. }
  split; [exact Hr|]. split; [exact Hin|].
  exact (delivery_follows_return Sample.unmarshal 2 1 _ _ _ Hr Hin).
Defined.

Lemma trace_follows_delivery_witness :
  let s := Sample.state_after 2 Sample2.full_trace in
  let tr := mkWriteTrace 2 100 (replicate 2 (Some (mkError codes.OK "" "" 0 None))) in
  reachable Sample.unmarshal 2 1 s
  /\ EvDiscard tr ∈ log s
  /\ BatchSize tr = 2
  /\ Z.of_nat (length (Errors tr)) = 2
  /\ exists w, EvDeliver w (Errors tr) ∈ log s.
Proof.
  assert (Hr : reachable Sample.unmarshal 2 1 (Sample.state_after 2 Sample2.full_trace))
    by (apply sample_reachable; vm_compute; eexists; reflexivity).
  assert (Hin : EvDiscard (mkWriteTrace 2 100
                             (replicate 2 (Some (mkError codes.OK "" "" 0 None))))
                ∈ log (Sample.state_after 2 Sample2.full_trace)).
  { apply list_elem_of_lookup. exists 11%nat. vm_compute. reflexivity. }
  split; [exact Hr|]. split; [exact Hin|].
  exact (trace_follows_delivery Sample.unmarshal 2 1 _ _ Hr (or_intror Hin)).
Defined.

Lemma stdout_only_notices_witness :
  let s := Sample.state_after 2 Sample2.full_trace in
  reachable Sample.unmarshal 2 1 s
  /\ length (discarded (log s)) = 1%nat
  /\ stdout s = replicate (length (discarded (log s))) notice.
Proof.
  assert (Hr : reachable Sample.unmarshal 2 1 (Sample.state_after 2 Sample2.full_trace))
    by (apply sample_reachable; vm_compute; eexists; reflexivity).
  split; [exact Hr|]. split; [vm_compute; reflexivity|].
  exact (stdout_only_notices Sample.unmarshal 2 1 _ Hr).
Defined.

Lemma negative_batchSize_nothing_queued_witness :
  let s := Sample.state_after (-1) [NewRequest (Sample.request 3); MakeTraceChan 1] in
  -1 < 0
  /\ reachable Sample.unmarshal (-1) 1 s
  /\ (forall r, Write_begin (-1) r s = None)
  /\ intaken (log s) = [] /\ invoked (log s) = [] /\ tasks s = [].
Proof.
  assert (Hr : reachable Sample.unmarshal (-1) 1
                 (Sample.state_after (-1) [NewRequest (Sample.request 3); MakeTraceChan 1]))
    by (apply sample_reachable; vm_compute; eexists; reflexivity).
  split; [lia|]. split; [exact Hr|].
  exact (negative_batchSize_nothing_queued Sample.unmarshal (-1) 1 _ ltac:(lia) Hr).
Defined.

Lemma requests_changed_only_by_caller_witness :
  let s := Sample.state_after 2 (Sample.setup ++ [WriteBegin (Some 0%nat)]) in
  let s' := Sample.state_after 2
              (Sample.setup ++ [WriteBegin (Some 0%nat); Mutate 0 (Sample.request 1)]) in
  let c := mkCell true (Sample.request 3) in
  exec Sample.unmarshal 2 1 (Mutate 0 (Sample.request 1)) s = Some s'
  /\ mem s !! 1%nat = Some c
  /\ (mem s' !! 1%nat = Some c
      \/ exists v, Mutate 0 (Sample.request 1) = Mutate 1 v /\ cloned c = false
                   /\ mem s' !! 1%nat = Some (mkCell false v)).
Proof.
  assert (He : exec Sample.unmarshal 2 1 (Mutate 0 (Sample.request 1))
                 (Sample.state_after 2 (Sample.setup ++ [WriteBegin (Some 0%nat)]))
               = Some (Sample.state_after 2
                         (Sample.setup
                          ++ [WriteBegin (Some 0%nat); Mutate 0 (Sample.request 1)])))
    by (vm_compute; reflexivity).
  assert (Hp : mem (Sample.state_after 2 (Sample.setup ++ [WriteBegin (Some 0%nat)]))
               !! 1%nat = Some (mkCell true (Sample.request 3)))
    by (vm_compute; reflexivity).
  split; [exact He|]. split; [exact Hp|].
  exact (requests_changed_only_by_caller Sample.unmarshal 2 1 _ _ _ _ _ He Hp).
Defined.

(** ** Every pending write gets its results *)

Section Delivery.

Variable UnmarshalAny : Any -> Error + string.
Variable batchSize : Z.
Variable writesCap : nat.

Local Abbreviation exec := (exec UnmarshalAny batchSize writesCap).
Local Abbreviation run := (run UnmarshalAny batchSize writesCap).
Local Abbreviation reachable := (reachable UnmarshalAny batchSize writesCap).

(** The dispatcher can always get back to its receive: the call is
    made, and the transport returns. *)
Lemma dispatcher_to_recv s :
  exists acts s',
    run acts s = Some s' /\ disp s' = DRecv
    /\ writes s' = writes s /\ senders s' = senders s.
Proof.
  destruct (disp s) as [|w|w start] eqn:Hd.
  - exists [], s. auto.
  - exists [ListenInvoke 0; TransportReturn None]. eexists.
    simpl. unfold Listen_invoke. rewrite Hd. simpl.
    split; [reflexivity|]. simpl. auto.
  - exists [TransportReturn None]. eexists.
    simpl. unfold Listen_go. rewrite Hd. simpl.
    split; [reflexivity|]. simpl. auto.
Qed.

(** The dispatcher can always empty the buffer of [c.writes]. *)
Lemma drain_dispatcher n : forall s,
  length (writes s) = n ->
  exists acts s',
    run acts s = Some s' /\ disp s' = DRecv
    /\ writes s' = [] /\ senders s' = senders s.
Proof.
  induction n as [|n IH]; intros s Hn.
  - destruct (dispatcher_to_recv s) as (acts & s' & Hrun & Hd & Hw & Hs).
    exists acts, s'. split; [exact Hrun|]. split; [exact Hd|].
    split; [|exact Hs]. rewrite Hw. apply nil_length_inv, Hn.
  - destruct (dispatcher_to_recv s) as (acts1 & s1 & Hrun1 & Hd1 & Hw1 & Hs1).
    destruct (writes s) as [|w rest] eqn:Hw; [discriminate|].
    simpl in Hn. injection Hn as Hn.
    destruct (IH (set_disp (DGot w) (set_writes rest s1))) as
      (acts2 & s2 & Hrun2 & Hd2 & Hw2 & Hs2); [exact Hn|].
    exists (acts1 ++ ListenRecv :: acts2), s2.
    split; [|split; [exact Hd2|split; [exact Hw2|]]].
    + rewrite run_app, Hrun1. simpl. unfold Listen_recv. rewrite Hd1, Hw1.
      exact Hrun2.
    + rewrite Hs2. simpl. exact Hs1.
Qed.

Lemma all_writes_intaken s w :
  reachable s -> (w ∈ all_writes s <-> w ∈ intaken (log s)).
Proof.
  intros Hr. destruct (reachable_inv _ _ _ s Hr) as (Hq & [I1 _] & _).
  rewrite all_writes_enqueued by exact Hq. rewrite I1. reflexivity.
Qed.

(** A pending write stays pending or is with a goroutine. *)
Lemma all_writes_mono acts s s' w :
  reachable s -> run acts s = Some s' -> w ∈ all_writes s -> w ∈ all_writes s'.
Proof.
  intros Hr Hrun Hw.
  assert (Hr' : reachable s') by (eapply run_reachable; eassumption).
  apply (all_writes_intaken s' w Hr'). apply (all_writes_intaken s w Hr) in Hw.
  apply intaken_elem in Hw as [v Hv].
  unfold intaken. apply list_elem_of_omap. exists (EvIntake w v).
  split; [|reflexivity]. eapply log_mono; eassumption.
Qed.

(** Once the caller of [Write] reads from the channel it was given, the
    goroutine at line 59 sends, and the channel has received the one
    result sequence. *)
Lemma send_after_read s k w err bs start tc now :
  reachable s -> tasks s !! k = Some (TRun w err bs start tc) ->
  exists s' c errors,
    run [ReadSink (resp w); ProcessSend k now] s = Some s'
    /\ parseP4RuntimeWriteError UnmarshalAny err bs = Some errors
    /\ tasks s' !! k = Some (TOffer w (mkWriteTrace bs (now - start) errors) tc)
    /\ sinks s' !! resp w = Some c
    /\ ch_sent c = [errors].
Proof.
  intros Hr Hk. destruct (reachable_inv _ _ _ s Hr) as (_ & _ & _ & Hc).
  destruct (inv_tasks _ _ Hc _ _ Hk) as (-> & _ & c0 & Hc0 & Hs0).
  destruct (inv_sink _ _ Hc _ _ Hc0) as [_ Hbuf]. rewrite Hs0 in Hbuf.
  assert (Hb : ch_buf c0 = []) by (apply nil_length_inv; simpl in Hbuf; lia).
  assert (Hnn : 0 <= batchSize).
  { destruct (decide (batchSize < 0)) as [Hn|Hn]; [|lia].
    pose proof (inv_negative _ _ (reachable_telemetry _ _ _ s Hr) Hn) as Hnil.
    rewrite Hnil, lookup_nil in Hc0. discriminate. }
  destruct (parse_total UnmarshalAny err batchSize Hnn) as (errors & Hp & _).
  assert (Hlt : (resp w < length (sinks s))%nat) by (eapply lookup_lt_Some, Hc0).
  eexists. exists (mkChan (ch_cap c0) [] (ch_recvq c0) [errors]), errors.
  split; [|split; [exact Hp|]].
  - simpl. unfold read_sink. rewrite Hc0. simpl.
    unfold process_send. simpl. rewrite Hk. simpl. rewrite Hp. simpl.
    rewrite list_lookup_insert_eq by exact Hlt. simpl.
    unfold chan_recv, chan_send. rewrite Hb, Hs0. simpl. reflexivity.
  - simpl. split; [|split; [|reflexivity]].
    + apply list_lookup_insert_eq. eapply lookup_lt_Some, Hk.
    + apply list_lookup_insert_eq. rewrite length_insert. exact Hlt.
Qed.

(** From every reachable state, every pending write can be brought to
    the point where its response channel has received its results:
    the dispatcher empties the queue, a caller still at line 32
    completes its send, the transport returns, and the caller reads. *)
Lemma write_can_be_delivered s w :
  reachable s -> w ∈ all_writes s ->
  exists acts s' k t c errors,
    run acts s = Some s'
    /\ tasks s' !! k = Some t /\ processed t /\ task_write t = w
    /\ sinks s' !! resp w = Some c /\ ch_sent c = [errors].
Proof.
  intros Hr Hw.
  destruct (drain_dispatcher (length (writes s)) s eq_refl)
    as (acts1 & s1 & Hrun1 & Hd1 & Hw1 & Hs1).
  assert (Hr1 : reachable s1) by (eapply run_reachable; eassumption).
  pose proof (all_writes_mono acts1 s s1 w Hr Hrun1 Hw) as Hin.
  unfold all_writes in Hin. rewrite Hd1, Hw1 in Hin. simpl in Hin.
  apply elem_of_app in Hin as [Hin|Hin].
  - (* a goroutine holds the write *)
    apply list_elem_of_fmap in Hin as (t & -> & Ht).
    apply list_elem_of_lookup in Ht as [k Hk].
    destruct t as [w0 err bs start tc|w0 tr tc|w0].
    + destruct (send_after_read s1 k w0 err bs start tc 0 Hr1 Hk)
        as (s2 & c & errors & Hrun2 & _ & Hk2 & Hc2 & Hs2).
      exists (acts1 ++ [ReadSink (resp w0); ProcessSend k 0]), s2, k.
      do 3 eexists. split; [rewrite run_app, Hrun1; exact Hrun2|].
      split; [exact Hk2|]. split; [exact I|]. split; [reflexivity|].
      split; [exact Hc2|exact Hs2].
    + destruct (reachable_inv _ _ _ s1 Hr1) as (_ & _ & _ & Hc).
      destruct (inv_tasks _ _ Hc _ _ Hk) as (_ & _ & c & Hc0 & Hs0).
      exists acts1, s1, k. do 3 eexists. split; [exact Hrun1|].
      split; [exact Hk|]. split; [exact I|]. split; [reflexivity|].
      split; [exact Hc0|exact Hs0].
    + destruct (reachable_inv _ _ _ s1 Hr1) as (_ & _ & _ & Hc).
      destruct (inv_tasks _ _ Hc _ _ Hk) as (c & errors & Hc0 & Hs0 & _).
      exists acts1, s1, k. do 3 eexists. split; [exact Hrun1|].
      split; [exact Hk|]. split; [exact I|]. split; [reflexivity|].
      split; [exact Hc0|exact Hs0].
  - (* a caller holds it at the send of line 32 *)
    apply list_elem_of_lookup in Hin as [k Hk].
    set (s2 := set_disp (DGot w)
                 (record (EvEnqueue w) (set_senders (delete k (senders s1)) s1))).
    set (s3 := record (EvInvoke w (deref (mem s2) (req w)))
                 (set_disp (DCall w 0) s2)).
    set (s4 := record (EvReturn w)
                 (set_tasks (tasks s3 ++ [TRun w None batchSize 0 (writeTraceChan s3)])
                    (set_disp DRecv s3))).
    assert (Hrun2 : run [WriteSend k; ListenInvoke 0; TransportReturn None] s1
                    = Some s4).
    { simpl. unfold Write_send. rewrite Hk. simpl. rewrite Hd1, Hw1. reflexivity. }
    assert (Hr4 : reachable s4) by (eapply run_reachable; eassumption).
    assert (Hk4 : tasks s4 !! length (tasks s1)
                  = Some (TRun w None batchSize 0 (writeTraceChan s3))).
    { simpl. apply list_lookup_middle. reflexivity. }
    destruct (send_after_read s4 _ w None batchSize 0 _ 0 Hr4 Hk4)
      as (s5 & c & errors & Hrun5 & _ & Hk5 & Hc5 & Hs5).
    exists (acts1 ++ [WriteSend k; ListenInvoke 0; TransportReturn None]
            ++ [ReadSink (resp w); ProcessSend (length (tasks s1)) 0]), s5.
    do 4 eexists.
    split.
    { rewrite run_app, Hrun1. unfold mbind, option_bind.
      rewrite run_app, Hrun2. exact Hrun5. }
    split; [exact Hk5|]. split; [exact I|]. split; [reflexivity|].
    split; [exact Hc5|exact Hs5].
Qed.

(** C7: in every reachable state no response channel has received more
    than one send; the channel of a write whose goroutine is past
    line 59 has received exactly one result sequence, the channel of
    any other pending write none yet; no two pending writes share a
    channel.  A goroutine at line 59 sends as soon as the caller of
    [Write] reads, and the channel then holds its one result
    sequence; and no pending write is dropped: from every reachable
    state each one can still be brought to that point. *)
Theorem sink_written_exactly_once s :
  reachable s ->
  (forall ch c, sinks s !! ch = Some c -> (length (ch_sent c) <= 1)%nat)
  /\ (forall k t, tasks s !! k = Some t -> processed t ->
        exists c errors,
          sinks s !! resp (task_write t) = Some c /\ ch_sent c = [errors])
  /\ (forall w, w ∈ all_writes s ->
        (forall k t, tasks s !! k = Some t -> processed t -> task_write t <> w) ->
        exists c, sinks s !! resp w = Some c /\ ch_sent c = [])
  /\ NoDup (resp <$> all_writes s)
  /\ (forall k w err bs start tc now,
        tasks s !! k = Some (TRun w err bs start tc) ->
        exists s' c errors,
          run [ReadSink (resp w); ProcessSend k now] s = Some s'
          /\ parseP4RuntimeWriteError UnmarshalAny err bs = Some errors
          /\ tasks s' !! k
             = Some (TOffer w (mkWriteTrace bs (now - start) errors) tc)
          /\ sinks s' !! resp w = Some c
          /\ ch_sent c = [errors])
  /\ (forall w, w ∈ all_writes s ->
        exists acts s' k t c errors,
          run acts s = Some s'
          /\ tasks s' !! k = Some t /\ processed t /\ task_write t = w
          /\ sinks s' !! resp w = Some c /\ ch_sent c = [errors]).
Proof.
  intros Hr.
  destruct (sinks_hold_at_most_one _ _ _ s Hr) as (H1 & H2 & H3 & H4).
  split; [exact H1|]. split; [exact H2|]. split; [exact H3|].
  split; [exact H4|]. split.
  - intros k w err bs start tc now Hk. exact (send_after_read s k w err bs start tc now Hr Hk).
  - intros w Hw. exact (write_can_be_delivered s w Hr Hw).
Qed.

(** X14: with batch size 0 the response channel is unbuffered, and a
    goroutine at line 59 can send exactly when a reader is parked on
    the channel of its write. *)
Theorem zero_batch_send_needs_reader s k w err bs start tc now c :
  batchSize = 0 ->
  reachable s ->
  tasks s !! k = Some (TRun w err bs start tc) ->
  sinks s !! resp w = Some c ->
  ch_cap c = 0%nat
  /\ (is_Some (exec (ProcessSend k now) s) <-> (0 < ch_recvq c)%nat).
Proof.
  intros Hz Hr Hk Hc0. destruct (reachable_inv _ _ _ s Hr) as (_ & _ & _ & Hc).
  destruct (inv_tasks _ _ Hc _ _ Hk) as (-> & _).
  destruct (inv_sink _ _ Hc _ _ Hc0) as [Hcap _].
  rewrite Hz in Hcap. simpl in Hcap. split; [exact Hcap|].
  destruct (parse_total UnmarshalAny err batchSize) as (errors & Hp & _); [lia|].
  simpl. unfold process_send. rewrite Hk. simpl. rewrite Hp. simpl.
  rewrite Hc0. simpl. unfold chan_send.
  destruct (decide (0 < ch_recvq c)%nat) as [Hq|Hq].
  - simpl. split; [intros _; exact Hq|intros _; eexists; reflexivity].
  - rewrite decide_False by lia. simpl.
    split; [intros [x Hx]; discriminate Hx|intros Hq'; contradiction].
Qed.

End Delivery.

Lemma sink_written_exactly_once_witness :
  let s := Sample.state_after 2 Sample2.two_writes in
  reachable Sample.unmarshal 2 1 s
  /\ Sample2.write1 ∈ all_writes s
  /\ (exists c, sinks s !! resp Sample2.write1 = Some c /\ ch_sent c = [])
  /\ NoDup (resp <$> all_writes s)
  /\ exists acts s' k t c errors,
       run Sample.unmarshal 2 1 acts s = Some s'
       /\ tasks s' !! k = Some t /\ processed t /\ task_write t = Sample2.write1
       /\ sinks s' !! resp Sample2.write1 = Some c /\ ch_sent c = [errors].
Proof.
  assert (Hr : reachable Sample.unmarshal 2 1
                 (Sample.state_after 2 Sample2.two_writes))
    by (apply sample_reachable; vm_compute; eexists; reflexivity).
  assert (Hw : Sample2.write1 ∈ all_writes (Sample.state_after 2 Sample2.two_writes)).
  { apply list_elem_of_lookup. exists 1%nat. vm_compute. reflexivity. }
  assert (Hs : exists c, sinks (Sample.state_after 2 Sample2.two_writes)
                           !! resp Sample2.write1 = Some c /\ ch_sent c = []).
  { eexists. split; vm_compute; reflexivity. }
  destruct (sink_written_exactly_once Sample.unmarshal 2 1 _ Hr)
    as (_ & _ & _ & Hnd & _ & Hlive).
  split; [exact Hr|]. split; [exact Hw|]. split; [exact Hs|].
  split; [exact Hnd|]. exact (Hlive _ Hw).
Defined.

Lemma zero_batch_send_needs_reader_witness :
  let s := Sample.state_after 0 Sample.before_send in
  let c := mkChan 0 [] 0 [] in
  reachable Sample.unmarshal 0 1 s
  /\ tasks s !! 0%nat
     = Some (TRun Sample.write0 (Some (PlainError "EOF")) 0 100 (Some 0%nat))
  /\ sinks s !! resp Sample.write0 = Some c
  /\ ch_cap c = 0%nat
  /\ (is_Some (exec Sample.unmarshal 0 1 (ProcessSend 0 250) s)
      <-> (0 < ch_recvq c)%nat).
Proof.
  assert (Hr : reachable Sample.unmarshal 0 1 (Sample.state_after 0 Sample.before_send))
    by (apply sample_reachable; vm_compute; eexists; reflexivity).
  assert (Hk : tasks (Sample.state_after 0 Sample.before_send) !! 0%nat
               = Some (TRun Sample.write0 (Some (PlainError "EOF")) 0 100 (Some 0%nat)))
    by (vm_compute; reflexivity).
  assert (Hc : sinks (Sample.state_after 0 Sample.before_send) !! resp Sample.write0
               = Some (mkChan 0 [] 0 [])) by (vm_compute; reflexivity).
  split; [exact Hr|]. split; [exact Hk|]. split; [exact Hc|].
  exact (zero_batch_send_needs_reader Sample.unmarshal 0 1 _ 0%nat Sample.write0
           (Some (PlainError "EOF")) 0 100 (Some 0%nat) 250 _ eq_refl Hr Hk Hc).
Defined.
